(** * irspimi: boolean and BM25 query evaluation over an inverted index

    A shallow embedding of [irspimi/expression_eval.py] (lexer, recursive
    descent parser, boolean evaluator, result aggregator) and of
    [irspimi/rank_bm25_eval.py] (BM25 ranking), with the properties of the
    design document stated and settled against the embedded code.

    Python objects that are mutated in place ([Parser], [Evaluator],
    [EvaluationResult], the [TermPostings] objects owned by the index) are
    modelled by explicit state passing; Python exceptions by the [Raise]
    outcome of a small state-and-exception monad. *)

From Stdlib Require Import ZArith String Ascii List Lia Permutation Sorted.
From Stdlib Require QArith.
From Stdlib Require Floats.PrimFloat Floats.FloatOps.
From stdpp Require Import base option list gmap strings.
Import ListNotations.
Open Scope string_scope.
Open Scope Z_scope.

(** ** Python exceptions and the state-and-exception monad *)

(** The exceptions the two modules can raise.  [ExpressionParserException]
    is the class defined at the end of [expression_eval.py]; the others are
    Python built-ins.  [RecursionError], which the interpreter raises where
    calls nest deeper than its recursion limit, is not among them: see
    [fits] for the runs of which outcomes are stated. *)
Inductive exn : Type :=
  | ExpressionParserException (msg : string)
  | UnboundLocalError (name : string)
  | StopIteration
  | ZeroDivisionError
  | ValueError.

(** Outcome of a call: a value, a raised exception, or [OutOfFuel], which
    belongs to the model only (recursion of the parser is bounded by a
    counter; see [parse_fuel] and [parse_enough_fuel]). *)
Inductive Res (A : Type) : Type :=
  | Ok (a : A)
  | Raise (e : exn)
  | OutOfFuel.
Arguments Ok {A} a.
Arguments Raise {A} e.
Arguments OutOfFuel {A}.

(** A method of an object whose state has type [S]: it returns an outcome
    and the state of the object after the call (mutations made before an
    exception is raised persist, as in Python). *)
Definition M (S A : Type) : Type := S -> Res A * S.

Definition ret {S A} (a : A) : M S A := fun s => (Ok a, s).
Definition raise {S A} (e : exn) : M S A := fun s => (Raise e, s).
Definition out_of_fuel {S A} : M S A := fun s => (OutOfFuel, s).
Definition bind {S A B} (m : M S A) (k : A -> M S B) : M S B :=
  fun s =>
    match m s with
    | (Ok a, s') => k a s'
    | (Raise e, s') => (Raise e, s')
    | (OutOfFuel, s') => (OutOfFuel, s')
    end.
Definition gets {S A} (f : S -> A) : M S A := fun s => (Ok (f s), s).
Definition modify {S} (f : S -> S) : M S unit := fun s => (Ok tt, f s).

Notation "'let*' x ':=' m 'in' k" := (bind m (fun x => k))
  (at level 10, x name, m at level 100, k at level 200).
Notation "m ';;' k" := (bind m (fun _ => k))
  (at level 100, k at level 200, right associativity).

(** ** Postings *)

(** [Posting] of [inverted_index]: a document id with the positions of the
    term in that document. *)
Record Posting : Type := mkPosting { docid : Z; positions : list Z }.

Definition docids (ps : list Posting) : list Z := map docid ps.

(** ** The [search] module

    [search.py] is not among the available sources; its three functions are
    Modelled from the design document (section 4.2). *)
Module search.

(** Modelled from the spec: [search.intersect], missing from the sources.
    Merge-join of two postings lists sorted by docid; one posting per docid
    present in both, with the positions of [a]'s entry. *)
Fixpoint intersect (a b : list Posting) : list Posting :=
  match a with
  | [] => []
  | p :: a' =>
      (fix scan (b : list Posting) : list Posting :=
         match b with
         | [] => []
         | q :: b' =>
             if docid p <? docid q then intersect a' b
             else if docid q <? docid p then scan b'
             else p :: intersect a' b'
         end) b
  end.

(** Modelled from the spec: the merge behind [search.union].  Merge of two
    postings lists sorted by docid; one posting per docid present in
    either, [a]'s entry preferred when both have it. *)
Fixpoint merge (a b : list Posting) : list Posting :=
  match a with
  | [] => b
  | p :: a' =>
      (fix scan (b : list Posting) : list Posting :=
         match b with
         | [] => a
         | q :: b' =>
             if docid p <? docid q then p :: merge a' b
             else if docid q <? docid p then q :: scan b'
             else p :: merge a' b'
         end) b
  end.

(** Modelled from the spec: [search.union], missing from the sources.  The
    evaluator passes the children's results to it as they are, so it
    receives [None] for an unindexed term; section 4.3 says that absent is
    treated as empty for union's purposes. *)
Definition union (a b : option (list Posting)) : list Posting :=
  merge (default [] a) (default [] b).

(** Modelled from the spec: [search.neg], missing from the sources.  One
    posting with no positions for every docid of [universe] that is not in
    [a]; an absent [a] behaves as the empty list. *)
Definition neg (universe : list Z) (a : option (list Posting)) : list Posting :=
  map (fun d => mkPosting d [])
      (filter (fun d => d ∉ docids (default [] a)) universe).

End search.

(** ** [expression_eval.py] *)
Module Boolean.

(** *** Tokens and lexer *)

Inductive TokenType : Type := TERM | OR | AND | NOT | LPAREN | RPAREN | EOF.

Global Instance TokenType_eq_dec : EqDecision TokenType.
Proof. solve_decision. Defined.

(** The [value] of each member of the enumeration. *)
Definition TokenType_value (t : TokenType) : string :=
  match t with
  | TERM => "TERM"
  | OR => "OR"
  | AND => "AND"
  | NOT => "NOT"
  | LPAREN => "("
  | RPAREN => ")"
  | EOF => "##EOF##"
  end.

(** [str] of a member, as [format] prints it in the parser's message. *)
Definition TokenType_str (t : TokenType) : string :=
  "TokenType." +:+
  match t with
  | TERM => "TERM"
  | OR => "OR"
  | AND => "AND"
  | NOT => "NOT"
  | LPAREN => "LPAREN"
  | RPAREN => "RPAREN"
  | EOF => "EOF"
  end.

Record Token : Type := mkToken { value : string; type : TokenType }.

(** One iteration of the loop of [lexer]: the chain of comparisons with
    the reserved spellings, [TERM] for everything else. *)
Definition lex1 (t : string) : Token :=
  if String.eqb t (TokenType_value OR) then mkToken t OR
  else if String.eqb t (TokenType_value AND) then mkToken t AND
  else if String.eqb t (TokenType_value NOT) then mkToken t NOT
  else if String.eqb t (TokenType_value LPAREN) then mkToken t LPAREN
  else if String.eqb t (TokenType_value RPAREN) then mkToken t RPAREN
  else if String.eqb t (TokenType_value EOF) then mkToken t EOF
  else mkToken t TERM.

Definition lexer (tokens : list string) : list Token := map lex1 tokens.

(** *** Parse trees *)

Inductive ParseTree : Type :=
  | BinOp (left_child : ParseTree) (op : Token) (right_child : ParseTree)
  | Term (term : Token)
  | UnaryOp (op : Token) (child : ParseTree).

(** *** Parser *)

(** The fields of a [Parser] object.  [_tokens_stream] is the iterator over
    [_tokens], represented by the tokens it has not yielded yet. *)
Record Parser : Type := mkParser {
  _tokens : list Token;
  _tokens_stream : list Token;
  _current_token : Token
}.

(** [next(self._tokens_stream)] followed by the assignment to
    [self._current_token]. *)
Definition advance : M Parser unit :=
  fun self =>
    match _tokens_stream self with
    | [] => (Raise StopIteration, self)
    | t :: rest =>
        (Ok tt, {| _tokens := _tokens self;
                   _tokens_stream := rest;
                   _current_token := t |})
    end.

Definition syntax_message (expected received : TokenType) : string :=
  "Invalid Syntax. Expected type: " +:+ TokenType_str expected +:+
  ", received: " +:+ TokenType_str received.

Definition _ingest (ty : TokenType) : M Parser unit :=
  let* tok := gets _current_token in
  if decide (type tok = ty) then advance
  else raise (ExpressionParserException (syntax_message ty (type tok))).

(** The three mutually recursive methods and their two [while] loops.
    Every call and every loop iteration spends one unit of [fuel].

    In [_term] the local variable [node] is assigned in the three branches
    of the [if]/[elif] chain, which has no [else]: for any other kind of
    current token [return node] reads an unbound local. *)
Fixpoint _term (fuel : nat) : M Parser ParseTree :=
  match fuel with
  | O => out_of_fuel
  | S fuel =>
      let* tok := gets _current_token in
      match type tok with
      | NOT =>
          _ingest NOT;;
          let* child := _term fuel in
          ret (UnaryOp tok child)
      | TERM =>
          _ingest TERM;;
          ret (Term tok)
      | LPAREN =>
          _ingest LPAREN;;
          let* node := _expression fuel in
          _ingest RPAREN;;
          ret node
      | _ => raise (UnboundLocalError "node")
      end
  end
with _conjunction (fuel : nat) : M Parser ParseTree :=
  match fuel with
  | O => out_of_fuel
  | S fuel =>
      let* node := _term fuel in
      _conjunction_while fuel node
  end
with _conjunction_while (fuel : nat) (node : ParseTree) : M Parser ParseTree :=
  match fuel with
  | O => out_of_fuel
  | S fuel =>
      let* op_tok := gets _current_token in
      if decide (type op_tok = AND) then
        _ingest AND;;
        let* right := _term fuel in
        _conjunction_while fuel (BinOp node op_tok right)
      else ret node
  end
with _expression (fuel : nat) : M Parser ParseTree :=
  match fuel with
  | O => out_of_fuel
  | S fuel =>
      let* node := _conjunction fuel in
      _expression_while fuel node
  end
with _expression_while (fuel : nat) (node : ParseTree) : M Parser ParseTree :=
  match fuel with
  | O => out_of_fuel
  | S fuel =>
      let* op_tok := gets _current_token in
      if decide (type op_tok = OR) then
        _ingest OR;;
        let* right := _conjunction fuel in
        _expression_while fuel (BinOp node op_tok right)
      else ret node
  end.

(** Tokens the parser can still look at: the current one and the rest of
    the stream. *)
Definition tokens_left (self : Parser) : nat := S (length (_tokens_stream self)).

(** Fuel that [parse] gives to [_expression]; [parse_enough_fuel] shows
    that it never runs out. *)
Definition parse_fuel (self : Parser) : nat := 3 * tokens_left self + 2.

Definition parse : M Parser ParseTree :=
  fun self => _expression (parse_fuel self) self.

Section Tokenizer.

(** [nltk.word_tokenize], an external library function. *)
Variable word_tokenize : string -> list string.

(** [Parser.__init__].  The token list ends with the appended end marker,
    so the first [next] always finds a token. *)
Definition Parser_init (expression : string) : Res Parser :=
  let tokens := (word_tokenize expression ++ [TokenType_value EOF])%list in
  let tokens := lexer tokens in
  match tokens with
  | [] => Raise StopIteration
  | t :: rest =>
      Ok {| _tokens := tokens; _tokens_stream := rest; _current_token := t |}
  end.

End Tokenizer.

(** *** Result aggregator *)

Module EvaluationResult.

(** An entry of the [results] dictionary, as [update_results] builds it
    (the [title] and [doc] keys are added later by [update_details],
    which talks to the corpus and is not part of the evaluation). *)
Record entry : Type := mkEntry {
  entry_positions : list Z;
  entry_terms : list string
}.

(** The attributes of an [EvaluationResult] object.  [None] in
    [query_result] and [results] is Python's [None]. *)
Record t : Type := mk {
  postings_map : gmap string (list Posting);
  term_map : gmap Z (list string);
  query_result : option (list Posting);
  results : option (gmap Z entry);
  complete : bool
}.

(** [__init__] *)
Definition new : t :=
  {| postings_map := ∅; term_map := ∅; query_result := None;
     results := None; complete := false |}.

(** Body of the loop of [add_postings] for one posting [p]. *)
Definition record_term (term : string) (tm : gmap Z (list string))
    (p : Posting) : gmap Z (list string) :=
  let tm :=
    match tm !! docid p with
    | None => <[docid p := []]> tm
    | Some _ => tm
    end in
  alter (fun terms => terms ++ [term])%list (docid p) tm.

Definition add_postings (term : string) (postings : list Posting)
    (self : t) : t :=
  {| postings_map := <[term := postings]> (postings_map self);
     term_map := fold_left (record_term term) postings (term_map self);
     query_result := query_result self;
     results := results self;
     complete := complete self |}.

Definition update_results (qr : list Posting) (self : t) : t :=
  {| postings_map := postings_map self;
     term_map := term_map self;
     query_result := Some qr;
     results :=
       Some (fold_left
               (fun d posting =>
                  <[docid posting :=
                      {| entry_positions := positions posting;
                         entry_terms :=
                           match term_map self !! docid posting with
                           | Some terms => terms
                           | None => []
                           end |}]> d)
               qr ∅);
     complete := true |}.

(** [get_postings] binds a local variable and falls off the end of the
    function: it has no [return] statement.  The result type is that of
    the local, with [None] for Python's [None]. *)
Definition get_postings (term : string) (self : t) : option (list Posting) :=
  let postings :=
    match postings_map self !! term with
    | Some ps => ps
    | None => []
    end in
  None.

Definition get_terms (d : Z) (self : t) : list string :=
  let terms := term_map self !! d in
  match terms with
  | Some ts => ts
  | None => []
  end.

End EvaluationResult.

(** *** The index, as the evaluator uses it *)

Module InvertedIndex.

(** [inverted_index.py] is not among the available sources; the index is
    a parameter of the evaluator.  [get_postings] answers [None] for a
    term that is not indexed, and otherwise the postings the evaluator
    iterates over; [get_universe] answers the docids of the corpus. *)
Record t : Type := mk {
  get_postings : string -> option (list Posting);
  get_universe : list Z
}.

End InvertedIndex.

(** *** Evaluator *)

(** The attributes of an [Evaluator] object. *)
Record Evaluator : Type := mkEvaluator {
  _parser : Parser;
  _index : InvertedIndex.t;
  eval_result : EvaluationResult.t
}.

(** A call of a method of [self._parser]. *)
Definition on_parser {A} (m : M Parser A) : M Evaluator A :=
  fun self =>
    let (r, p) := m (_parser self) in
    (r, {| _parser := p; _index := _index self; eval_result := eval_result self |}).

(** A call of a method of [self.eval_result]. *)
Definition on_eval_result (f : EvaluationResult.t -> EvaluationResult.t)
    : M Evaluator unit :=
  modify (fun self =>
    {| _parser := _parser self; _index := _index self;
       eval_result := f (eval_result self) |}).

Definition _reset : M Evaluator unit :=
  on_eval_result (fun _ => EvaluationResult.new).

(** [Evaluator.__init__] *)
Definition Evaluator_init (parser : Parser) (index : InvertedIndex.t) : Evaluator :=
  {| _parser := parser; _index := index; eval_result := EvaluationResult.new |}.

Definition _visit_term (term : Token) : M Evaluator (option (list Posting)) :=
  let* index := gets _index in
  let postings := InvertedIndex.get_postings index (value term) in
  match postings with
  | None => on_eval_result (EvaluationResult.add_postings (value term) [])
  | Some ps => on_eval_result (EvaluationResult.add_postings (value term) ps)
  end;;
  ret postings.

(** [_visit_binop], with the dispatcher [_visit] it calls back as an
    argument. *)
Definition _visit_binop (_visit : ParseTree -> M Evaluator (option (list Posting)))
    (left_child : ParseTree) (op : Token) (right_child : ParseTree)
    : M Evaluator (option (list Posting)) :=
  match type op with
  | AND =>
      let* left_postings := _visit left_child in
      let* right_postings := _visit right_child in
      match left_postings, right_postings with
      | None, None => ret None
      | None, Some _ => ret right_postings
      | Some _, None => ret left_postings
      | Some l, Some r => ret (Some (search.intersect l r))
      end
  | OR =>
      let* l := _visit left_child in
      let* r := _visit right_child in
      ret (Some (search.union l r))
  | _ => raise (ExpressionParserException "Invalid Binary Operator Type: Aborting!")
  end.

Definition _visit_unaryop (_visit : ParseTree -> M Evaluator (option (list Posting)))
    (child : ParseTree) : M Evaluator (option (list Posting)) :=
  let* universe := gets (fun self => InvertedIndex.get_universe (_index self)) in
  let* r := _visit child in
  ret (Some (search.neg universe r)).

(** The dispatcher.  Its last branch ("Invalid Node Type") needs a node
    that is none of the three classes, which [ParseTree] does not have. *)
Fixpoint _visit (node : ParseTree) : M Evaluator (option (list Posting)) :=
  match node with
  | BinOp l op r => _visit_binop _visit l op r
  | Term tok => _visit_term tok
  | UnaryOp _ child => _visit_unaryop _visit child
  end.

Definition evaluate : M Evaluator EvaluationResult.t :=
  _reset;;
  let* tree := on_parser parse in
  let* query_result := _visit tree in
  let query_result :=
    match query_result with
    | Some qr => qr
    | None => []
    end in
  on_eval_result (EvaluationResult.update_results query_result);;
  gets eval_result.

Section Query.

Variable word_tokenize : string -> list string.

(** What a caller does with the two classes:
    [Evaluator(Parser(expression), index).evaluate()]. *)
Definition boolean_query (expression : string) (index : InvertedIndex.t)
    : Res EvaluationResult.t :=
  match Parser_init word_tokenize expression with
  | Ok parser => fst (evaluate (Evaluator_init parser index))
  | Raise e => Raise e
  | OutOfFuel => OutOfFuel
  end.

(** The parse tree of an expression. *)
Definition parse_expression (expression : string) : Res ParseTree :=
  match Parser_init word_tokenize expression with
  | Ok parser => fst (parse parser)
  | Raise e => Raise e
  | OutOfFuel => OutOfFuel
  end.

End Query.

(** A tokenizer for examples: splits at spaces.  On words and operators
    separated by single spaces it agrees with [nltk.word_tokenize]. *)
Fixpoint split_spaces_aux (cur : string) (s : string) : list string :=
  match s with
  | EmptyString => if String.eqb cur "" then [] else [cur]
  | String c rest =>
      if Ascii.eqb c (Ascii.ascii_of_nat 32)
      then (if String.eqb cur "" then [] else [cur]) ++ split_spaces_aux "" rest
      else split_spaces_aux (cur +:+ String c EmptyString) rest
  end%list.

Definition split_spaces (s : string) : list string := split_spaces_aux "" s.

End Boolean.

(** ** [rank_bm25_eval.py] *)
Module BM25.

(** [TermPostings] of [inverted_index]: the object the index answers for a
    term.  [evaluate] assigns to its attribute [term]. *)
Record TermPostings : Type := mkTermPostings {
  term : string;
  postings : list Posting
}.

(** References to [TermPostings] objects. *)
Definition ref : Type := nat.

(** Python's [float] and the operations the ranker applies to it.
    Division and [log2] are the ones that can raise ([ZeroDivisionError],
    [ValueError]); [of_int] is the conversion Python applies to an [int]
    operand; [ltb] is the comparison [<] that [sorted] uses.  No law is
    assumed of them, so that what is proved of the ranker holds of the
    rounded operations. *)
Class PyFloat (num : Type) : Type := {
  of_int : Z -> num;
  add : num -> num -> num;
  sub : num -> num -> num;
  mul : num -> num -> num;
  div : num -> num -> Res num;
  log2 : num -> Res num;
  ltb : num -> num -> bool
}.

(** [eval_result.EvaluationResult], the aggregator this module imports, is
    not among the available sources: its constructor and the two methods
    the ranker calls are parameters. *)
Class Aggregator (num EvaluationResult : Type) : Type := {
  EvaluationResult_new : EvaluationResult;
  add_postings : string -> list Posting -> EvaluationResult -> EvaluationResult;
  update_ranked_results : list (Z * num) -> EvaluationResult -> EvaluationResult
}.

(** [inverted_index.InvertedIndex] is not among the available sources
    either; the index is a parameter of the ranker.  [objects] is the state
    of the [TermPostings] objects the index hands out, [get_postings]
    answers a reference to one of them or [None]. *)
Record InvertedIndex (num : Type) : Type := mkIndex {
  objects : ref -> TermPostings;
  get_postings : string -> option ref;
  get_doc_count : Z;
  get_doclength : Z -> Z;
  avg_doclength : num
}.
Arguments mkIndex {num}.
Arguments objects {num}.
Arguments get_postings {num}.
Arguments get_doc_count {num}.
Arguments get_doclength {num}.
Arguments avg_doclength {num}.

(** The attributes of a [RankedSearchBM25] object. *)
Record RankedSearchBM25 (num : Type) : Type := mkRanked {
  query : list string;
  index : InvertedIndex num;
  k1 : num;
  b : num
}.
Arguments mkRanked {num}.
Arguments query {num}.
Arguments index {num}.
Arguments k1 {num}.
Arguments b {num}.

(** An outcome of the arithmetic, inside a method. *)
Definition lift {S A} (r : Res A) : M S A := fun s => (r, s).

Section Ranking.

Context {num : Type} {float : PyFloat num}.
Context {EvaluationResult : Type} {aggregator : Aggregator num EvaluationResult}.

(** [__init__], without the default values of [k1] and [b]. *)
Definition RankedSearchBM25_init (word_tokenize : string -> list string)
    (q : string) (idx : InvertedIndex num) (k1 b : num) : RankedSearchBM25 num :=
  {| query := word_tokenize q; index := idx; k1 := k1; b := b |}.

(** [term_postings.term = t]: the assignment to the attribute of the
    object behind the reference [r]. *)
Definition set_term (r : ref) (t : string) : M (RankedSearchBM25 num) unit :=
  modify (fun self =>
    let idx := index self in
    {| query := query self;
       index :=
         {| objects := fun r' =>
              if decide (r' = r)
              then {| term := t; postings := postings (objects idx r') |}
              else objects idx r';
            get_postings := get_postings idx;
            get_doc_count := get_doc_count idx;
            get_doclength := get_doclength idx;
            avg_doclength := avg_doclength idx |};
       k1 := k1 self;
       b := b self |}).

(** Reading an attribute of the object behind a reference. *)
Definition get_attr {A} (f : TermPostings -> A) (r : ref)
    : M (RankedSearchBM25 num) A :=
  gets (fun self => f (objects (index self) r)).

(** The first loop of [evaluate], over the rest [ts] of [self.query],
    with the list [term_postings_list] built so far. *)
Fixpoint evaluate_for (ts : list string) (term_postings_list : list ref)
    : M (RankedSearchBM25 num) (list ref) :=
  match ts with
  | [] => ret term_postings_list
  | t :: ts =>
      let* term_postings := gets (fun self => get_postings (index self) t) in
      match term_postings with
      | Some r =>
          set_term r t;;
          evaluate_for ts (term_postings_list ++ [r])%list
      | None => evaluate_for ts term_postings_list
      end
  end.

(** *** Accumulators: an insertion-ordered dictionary from docid to score *)

Fixpoint acc_get (d : Z) (acc : list (Z * num)) : option num :=
  match acc with
  | [] => None
  | (d', x) :: acc => if decide (d' = d) then Some x else acc_get d acc
  end.

(** [acc[d] = x]: replaces the value of an existing key in place, adds a
    new key at the end. *)
Fixpoint acc_set (d : Z) (x : num) (acc : list (Z * num)) : list (Z * num) :=
  match acc with
  | [] => [(d, x)]
  | (d', y) :: acc =>
      if decide (d' = d) then (d', x) :: acc else (d', y) :: acc_set d x acc
  end.

Definition _compute_bm25_term (idf : num) (tf dl : Z) : M (RankedSearchBM25 num) num :=
  let* davg := gets (fun self => avg_doclength (index self)) in
  let* k1 := gets k1 in
  let* b := gets b in
  let numerator := mul idf (mul (add k1 (of_int 1)) (of_int tf)) in
  let* q := lift (div (of_int dl) davg) in
  let denominator :=
    add (mul k1 (add (sub (of_int 1) b) (mul b q))) (of_int tf) in
  lift (div numerator denominator).

(** The inner loop of [_search_scored], over the postings of one term. *)
Fixpoint _search_scored_postings (idf : num) (ps : list Posting)
    (accumulators : list (Z * num)) : M (RankedSearchBM25 num) (list (Z * num)) :=
  match ps with
  | [] => ret accumulators
  | p :: ps =>
      let tf := Z.of_nat (length (positions p)) in
      let* dl := gets (fun self => get_doclength (index self) (docid p)) in
      let accumulators :=
        match acc_get (docid p) accumulators with
        | None => acc_set (docid p) (of_int 0) accumulators
        | Some _ => accumulators
        end in
      let old := default (of_int 0) (acc_get (docid p) accumulators) in
      let* w := _compute_bm25_term idf tf dl in
      _search_scored_postings idf ps (acc_set (docid p) (add old w) accumulators)
  end.

(** The outer loop of [_search_scored], over the fetched objects. *)
Fixpoint _search_scored_terms (doc_count : Z) (term_postings_list : list ref)
    (accumulators : list (Z * num)) : M (RankedSearchBM25 num) (list (Z * num)) :=
  match term_postings_list with
  | [] => ret accumulators
  | r :: rest =>
      let* ps := get_attr postings r in
      let* idf :=
        match ps with
        | [] => ret (of_int 0)
        | _ :: _ =>
            let* q := lift (div (of_int doc_count) (of_int (Z.of_nat (length ps)))) in
            lift (log2 q)
        end in
      let* accumulators := _search_scored_postings idf ps accumulators in
      _search_scored_terms doc_count rest accumulators
  end.

Definition _search_scored (term_postings_list : list ref)
    : M (RankedSearchBM25 num) (list (Z * num)) :=
  let accumulators := [] in
  let* doc_count := gets (fun self => get_doc_count (index self)) in
  _search_scored_terms doc_count term_postings_list accumulators.

(** [sorted(items, key=itemgetter(1), reverse=True)]: Python's sort is
    stable, also with [reverse=True], and compares keys with [<] only.
    [place x l] puts [x] in front of the first entry whose score is not
    above the score of [x].  Where [<] is a strict weak order on the scores
    this is the sequence that Python's sort answers; with a NaN among the
    scores it is not one, and Python's sort answers an arrangement that
    depends on its merge strategy. *)
Fixpoint place (x : Z * num) (l : list (Z * num)) : list (Z * num) :=
  match l with
  | [] => [x]
  | y :: l' => if ltb (snd x) (snd y) then y :: place x l' else x :: l
  end.

Definition sorted_by_score_reverse (items : list (Z * num)) : list (Z * num) :=
  fold_right place [] items.

(** The loop of [_build_result], which reads [term] and [postings]
    through the references. *)
Fixpoint _build_result_for (term_postings_list : list ref)
    (results : EvaluationResult) : M (RankedSearchBM25 num) EvaluationResult :=
  match term_postings_list with
  | [] => ret results
  | r :: rest =>
      let* t := get_attr term r in
      let* ps := get_attr postings r in
      _build_result_for rest (add_postings t ps results)
  end.

(** The sequence [_build_result] hands to [update_ranked_results]. *)
Definition ranked_score (scored_result : list (Z * num)) : list (Z * num) :=
  sorted_by_score_reverse scored_result.

Definition _build_result (term_postings_list : list ref)
    (scored_result : list (Z * num)) : M (RankedSearchBM25 num) EvaluationResult :=
  let* results := _build_result_for term_postings_list EvaluationResult_new in
  ret (update_ranked_results (ranked_score scored_result) results).

Definition evaluate : M (RankedSearchBM25 num) EvaluationResult :=
  let* query := gets query in
  let* term_postings_list := evaluate_for query [] in
  let* scored_results := _search_scored term_postings_list in
  _build_result term_postings_list scored_results.

(** The first two steps of [evaluate] alone: the scores it computes
    before it builds the result. *)
Definition evaluate_scores : M (RankedSearchBM25 num) (list (Z * num)) :=
  let* query := gets query in
  let* term_postings_list := evaluate_for query [] in
  _search_scored term_postings_list.

End Ranking.

End BM25.

(** ** The BM25 score, as the design document defines it *)

(** Sequencing of outcomes without state. *)
Definition res_bind {A B} (r : Res A) (k : A -> Res B) : Res B :=
  match r with
  | Ok a => k a
  | Raise e => Raise e
  | OutOfFuel => OutOfFuel
  end.

Definition res_map {A B} (f : A -> B) (r : Res A) : Res B :=
  res_bind r (fun a => Ok (f a)).

Fixpoint res_mapM {A B} (f : A -> Res B) (l : list A) : Res (list B) :=
  match l with
  | [] => Ok []
  | x :: l =>
      res_bind (f x) (fun y => res_bind (res_mapM f l) (fun ys => Ok (y :: ys)))
  end.

Module BM25Spec.
Import BM25.

Section Score.
Context {num : Type} {float : PyFloat num}.
Variable self : RankedSearchBM25 num.

(** [idf = log2(N / df)], and 0 for a term without postings. *)
Definition idf (ps : list Posting) : Res num :=
  match ps with
  | [] => Ok (of_int 0)
  | _ :: _ =>
      res_bind
        (div (of_int (get_doc_count (index self))) (of_int (Z.of_nat (length ps))))
        log2
  end.

(** [idf * (k1+1) * tf / (k1 * ((1-b) + b * dl/davg) + tf)] for one
    posting, with [tf] the number of its positions and [dl] the length
    of its document.  The products are grouped as the code groups them:
    the operations of [float] are not associative. *)
Definition score_term (idf : num) (p : Posting) : Res num :=
  let tf := of_int (Z.of_nat (length (positions p))) in
  let dl := of_int (get_doclength (index self) (docid p)) in
  let davg := avg_doclength (index self) in
  res_bind (div dl davg) (fun dl_davg =>
    div (mul idf (mul (add (k1 self) (of_int 1)) tf))
        (add (mul (k1 self) (add (sub (of_int 1) (b self)) (mul (b self) dl_davg)))
             tf)).

(** The contributions of one occurrence of a query term with postings
    [ps]: one per posting, to the score of the posting's document. *)
Definition term_contributions (ps : list Posting) : Res (list (Z * num)) :=
  res_bind (idf ps) (fun i =>
    res_mapM (fun p => res_map (pair (docid p)) (score_term i p)) ps).

(** The objects fetched for the query: one per occurrence of a term that
    the index knows. *)
Definition fetched : list ref := omap (get_postings (index self)) (query self).

(** The contributions of the whole query, occurrence after occurrence. *)
Definition query_contributions : Res (list (Z * num)) :=
  res_map (@concat (Z * num))
    (res_mapM (fun r => term_contributions (postings (objects (index self) r)))
       fetched).

End Score.

Section Sum.
Context {num : Type} {float : PyFloat num}.

(** The docids of a list, each once, in the order of their first
    occurrence. *)
Fixpoint first_occurrences (l : list Z) : list Z :=
  match l with
  | [] => []
  | d :: l => d :: filter (fun d' => d' <> d) (first_occurrences l)
  end.

(** The sum of the contributions to document [d], added one after the
    other to 0. *)
Definition score_of (cs : list (Z * num)) (d : Z) : num :=
  fold_left add (map snd (filter (fun c => fst c = d) cs)) (of_int 0).

(** The scores: one entry for each document with a contribution. *)
Definition scores (cs : list (Z * num)) : list (Z * num) :=
  map (fun d => (d, score_of cs d)) (first_occurrences (map fst cs)).

End Sum.

End BM25Spec.

(** * The vocabulary of the properties *)

(** [wp F m s Q]: if [m] returns from [s], the value and the state satisfy
    [Q]; [F] is what is asked of a run that exhausts its fuel. *)
Definition wp {S A} (F : Prop) (m : M S A) (s : S) (Q : A -> S -> Prop) : Prop :=
  match m s with
  | (Ok a, s') => Q a s'
  | (Raise _, _) => True
  | (OutOfFuel, _) => F
  end.

(** ** For the boolean evaluator and the parser *)
Section BooleanVocabulary.
Import Boolean.

(** Number of postings of [ps] that belong to document [d]. *)
Definition occurrences (d : Z) (ps : list Posting) : nat :=
  length (filter (fun p => docid p = d) ps).

(** The terms of the leaves of a tree, from left to right. *)
Fixpoint tree_terms (node : ParseTree) : list string :=
  match node with
  | BinOp l _ r => tree_terms l ++ tree_terms r
  | Term tok => [value tok]
  | UnaryOp _ child => tree_terms child
  end%list.

(** What a visit of the leaf [t] appends to the term list of document [d]:
    one copy of [t] for each posting of [t] in [d]. *)
Definition recorded (index : InvertedIndex.t) (d : Z) (t : string) : list string :=
  repeat t (occurrences d (default [] (InvertedIndex.get_postings index t))).

(** The grammar of the design document, with the trees the parser builds:
    [term := NOT term | TERM | LPAREN expression RPAREN],
    [conjunction := term (AND term)*],
    [expression := conjunction (OR conjunction)*]; the repetitions build
    their tree to the left. *)
Inductive derives_term : list Token -> ParseTree -> Prop :=
  | derives_NOT tok ts child :
      type tok = NOT -> derives_term ts child ->
      derives_term (tok :: ts) (UnaryOp tok child)
  | derives_TERM tok :
      type tok = TERM -> derives_term [tok] (Term tok)
  | derives_paren l ts node r :
      type l = LPAREN -> derives_expression ts node -> type r = RPAREN ->
      derives_term (l :: ts ++ [r]) node
with derives_conjunction : list Token -> ParseTree -> Prop :=
  | derives_conjunction_term ts node :
      derives_term ts node -> derives_conjunction ts node
  | derives_AND ts1 left op ts2 right :
      derives_conjunction ts1 left -> type op = AND -> derives_term ts2 right ->
      derives_conjunction (ts1 ++ op :: ts2) (BinOp left op right)
with derives_expression : list Token -> ParseTree -> Prop :=
  | derives_expression_conjunction ts node :
      derives_conjunction ts node -> derives_expression ts node
  | derives_OR ts1 left op ts2 right :
      derives_expression ts1 left -> type op = OR -> derives_conjunction ts2 right ->
      derives_expression (ts1 ++ op :: ts2) (BinOp left op right).

(** The tokens the parser has not consumed. *)
Definition remaining (p : Parser) : list Token :=
  _current_token p :: _tokens_stream p.

(** What a method has consumed when it returns [t] in state [p'], having
    started in state [p]: a prefix [ts] of the remaining tokens, for which
    [D ts t] holds. *)
Definition consumed (D : list Token -> ParseTree -> Prop) (p : Parser)
    (t : ParseTree) (p' : Parser) : Prop :=
  exists ts, remaining p = (ts ++ remaining p')%list /\ D ts t.

End BooleanVocabulary.

(** ** For the ranker *)
Section RankingVocabulary.
Import BM25 BM25Spec.
Context {num : Type} {float : PyFloat num}.
Context {EvaluationResult : Type} {aggregator : Aggregator num EvaluationResult}.

(** What one pass of the body of the inner loop does to the accumulators,
    for a posting of document [fst c] that weighs [snd c]. *)
Definition accumulate1 (acc : list (Z * num)) (c : Z * num) : list (Z * num) :=
  let acc' :=
    match acc_get (fst c) acc with
    | None => acc_set (fst c) (of_int 0) acc
    | Some _ => acc
    end in
  acc_set (fst c) (add (default (of_int 0) (acc_get (fst c) acc')) (snd c)) acc'.

(** Two states of the ranker that differ at most in the [term] attribute
    of the objects of the index. *)
Definition same_but_terms (self self' : RankedSearchBM25 num) : Prop :=
  query self' = query self /\
  k1 self' = k1 self /\
  b self' = b self /\
  get_postings (index self') = get_postings (index self) /\
  get_doc_count (index self') = get_doc_count (index self) /\
  get_doclength (index self') = get_doclength (index self) /\
  avg_doclength (index self') = avg_doclength (index self) /\
  forall r, postings (objects (index self') r) = postings (objects (index self) r).

(** The last token among [ts] for which the index answers [r]. *)
Definition last_fetching (idx : InvertedIndex num) (r : ref) (ts : list string)
    : option string :=
  last (filter (fun t => get_postings idx t = Some r) ts).

(** The aggregator after the loop of [_build_result]. *)
Definition registered (self : RankedSearchBM25 num) (tpl : list ref)
    (results : EvaluationResult) : EvaluationResult :=
  fold_left
    (fun results r =>
       add_postings (term (objects (index self) r))
         (postings (objects (index self) r)) results)
    tpl results.

(** No entry is followed by one with a greater score. *)
Definition descending : list (Z * num) -> Prop :=
  StronglySorted (fun x y => ltb (snd x) (snd y) = false).

End RankingVocabulary.

(** ** Sample inputs *)
Module Sample.
Import Boolean.

(** An index in which [x] is not indexed and [y] occurs in documents 5
    and 6. *)
Definition index_y : InvertedIndex.t :=
  {| InvertedIndex.get_postings := fun t =>
       if String.eqb t "y" then Some [mkPosting 5 [0]; mkPosting 6 [2; 7]]
       else None;
     InvertedIndex.get_universe := [1; 5; 6] |}.

(** An index with [a] in document 1, [b] and [c] in document 2. *)
Definition index_abc : InvertedIndex.t :=
  {| InvertedIndex.get_postings := fun t =>
       if String.eqb t "a" then Some [mkPosting 1 [0]]
       else if String.eqb t "b" then Some [mkPosting 2 [1]]
       else if String.eqb t "c" then Some [mkPosting 2 [4]]
       else None;
     InvertedIndex.get_universe := [1; 2] |}.

(** An index with [x] in documents 1 and 3, [y] in documents 3 and 5. *)
Definition index_xy : InvertedIndex.t :=
  {| InvertedIndex.get_postings := fun t =>
       if String.eqb t "x" then Some [mkPosting 1 [0]; mkPosting 3 [2]]
       else if String.eqb t "y" then Some [mkPosting 3 [3]; mkPosting 5 [1]]
       else None;
     InvertedIndex.get_universe := [1; 3; 5] |}.

(** The evaluator for an expression of single-spaced words. *)
Definition evaluator (expression : string) (index : InvertedIndex.t) : Evaluator :=
  match Parser_init split_spaces expression with
  | Ok parser => Evaluator_init parser index
  | _ => Evaluator_init (mkParser [] [] (mkToken "" EOF)) index
  end.

End Sample.

(** ** Sample inputs for the ranker *)
Module SampleRanking.
Import BM25.
Abbreviation Q := QArith_base.Q.

(** Exact rationals in the place of floats.  [log2] is the logarithm of
    the integer part, which is all that rationals offer; the examples
    below do not depend on it. *)
Global Instance Q_float : PyFloat Q := {|
  of_int := QArith_base.inject_Z;
  add := QArith_base.Qplus;
  sub := QArith_base.Qminus;
  mul := QArith_base.Qmult;
  div := fun x y =>
    if QArith_base.Qeq_bool y (QArith_base.inject_Z 0)
    then Raise ZeroDivisionError
    else Ok (QArith_base.Qdiv x y);
  log2 := fun x =>
    if QArith_base.Qle_bool x (QArith_base.inject_Z 0)
    then Raise ValueError
    else Ok (QArith_base.inject_Z
               (Z.log2 (QArith_base.Qnum x / Zpos (QArith_base.Qden x))));
  ltb := fun x y => negb (QArith_base.Qle_bool y x)
|}.

(** An aggregator that keeps what it is given. *)
Global Instance kept : Aggregator Q (list (string * list Posting) * list (Z * Q)) := {|
  EvaluationResult_new := ([], []);
  add_postings := fun t ps results => (fst results ++ [(t, ps)], snd results)%list;
  update_ranked_results := fun ranked results => (fst results, ranked)
|}.

(** An index that answers the object of the stem [appl] for the token
    [apple]. *)
Definition index_apple : InvertedIndex Q :=
  {| objects := fun r =>
       match r with
       | O => {| term := "appl"; postings := [mkPosting 1 [0; 4]; mkPosting 2 [3]] |}
       | _ => {| term := ""; postings := [] |}
       end;
     get_postings := fun t => if String.eqb t "apple" then Some O else None;
     get_doc_count := 4;
     get_doclength := fun _ => 10;
     avg_doclength := QArith_base.inject_Z 10 |}.

Definition ranker_apple : RankedSearchBM25 Q :=
  {| query := ["apple"]; index := index_apple;
     k1 := QArith_base.Qmake 6 5; b := QArith_base.Qmake 3 4 |}.

(** The scored set [{1: 0.5, 2: 0.9, 3: 0.9}]. *)
Definition scored_123 : list (Z * Q) :=
  [(1, QArith_base.Qmake 1 2); (2, QArith_base.Qmake 9 10);
   (3, QArith_base.Qmake 9 10)].

End SampleRanking.

(** * The vocabulary of the further properties *)

(** [refines m m']: whatever [m] does without exhausting its fuel, [m']
    does too. *)
Definition refines {S A} (m m' : M S A) : Prop :=
  forall s r s', m s = (r, s') -> r <> OutOfFuel -> m' s = (r, s').

(** [outcome m s Q E]: a value that [m] returns from [s] satisfies [Q], with
    the state; an exception that it raises satisfies [E]. *)
Definition outcome {S A} (m : M S A) (s : S) (Q : A -> S -> Prop)
    (E : exn -> Prop) : Prop :=
  match m s with
  | (Ok a, s') => Q a s'
  | (Raise e, _) => E e
  | (OutOfFuel, _) => True
  end.

(** ** For the parser *)
Section ParserVocabulary.
Import Boolean.

(** The last of the tokens that the parser can still look at is an end
    marker. *)
Definition ends_with_EOF (p : Parser) : Prop :=
  exists body e, remaining p = (body ++ [e])%list /\ type e = EOF.

(** The two exceptions of the parser: the unbound local of [_term], and the
    syntax error of the ingest of a closing parenthesis. *)
Definition parser_exception (e : exn) : Prop :=
  e = UnboundLocalError "node" \/
  exists received,
    received <> RPAREN /\
    e = ExpressionParserException (syntax_message RPAREN received).

(** A tree whose nodes carry the tokens that the parser puts there. *)
Fixpoint well_formed (node : ParseTree) : Prop :=
  match node with
  | BinOp l op r => (type op = AND \/ type op = OR) /\ well_formed l /\ well_formed r
  | Term tok => type tok = TERM
  | UnaryOp op child => type op = NOT /\ well_formed child
  end.

(** The three statements of the induction on derivations.  A term is
    parsed by [_term]; a conjunction and an expression are parsed up to the
    loop that would continue them. *)
Definition parses_term (ts : list Token) (t : ParseTree) : Prop :=
  forall (p : Parser) nxt rest,
    remaining p = (ts ++ nxt :: rest)%list ->
    exists fuel p', _term fuel p = (Ok t, p') /\ remaining p' = nxt :: rest.

Definition parses_conjunction (ts : list Token) (t : ParseTree) : Prop :=
  forall (p : Parser) nxt rest,
    remaining p = (ts ++ nxt :: rest)%list ->
    exists k p',
      remaining p' = nxt :: rest /\
      forall fuel r q,
        _conjunction_while fuel t p' = (r, q) -> r <> OutOfFuel ->
        _conjunction (k + fuel) p = (r, q).

Definition parses_expression (ts : list Token) (t : ParseTree) : Prop :=
  forall (p : Parser) nxt rest,
    remaining p = (ts ++ nxt :: rest)%list ->
    type nxt <> AND ->
    exists k p',
      remaining p' = nxt :: rest /\
      forall fuel r q,
        _expression_while fuel t p' = (r, q) -> r <> OutOfFuel ->
        _expression (k + fuel) p = (r, q).

End ParserVocabulary.

(** ** For the boolean evaluator *)
Section EvaluatorVocabulary.
Import Boolean.

(** A tree built with AND from terms that the index does not know. *)
Fixpoint all_absent (index : InvertedIndex.t) (node : ParseTree) : Prop :=
  match node with
  | BinOp l op r => type op = AND /\ all_absent index l /\ all_absent index r
  | Term tok => InvertedIndex.get_postings index (value tok) = None
  | UnaryOp _ _ => False
  end.

(** The last posting of document [d] in a postings list. *)
Definition last_posting (d : Z) (ps : list Posting) : option Posting :=
  last (filter (fun p => docid p = d) ps).

End EvaluatorVocabulary.

(** ** The recursion limit of the interpreter

    CPython raises [RecursionError] where the calls nest deeper than
    [sys.getrecursionlimit()].  The recursion of the embedding is not
    capped and [exn] has no such exception: the outcome of a parse or of an
    evaluation is stated of the runs that stay under the limit. *)
Section RecursionLimit.
Import Boolean.

(** [fits recursion_limit frames_in_use needed]: a call that nests at most
    [needed] frames stays under the limit.  [frames_in_use] counts the
    frames on the stack where the call is made, and those that the
    functions outside the sources (the tokenizer, the index, [search]) take
    below it. *)
Definition fits (recursion_limit frames_in_use needed : nat) : Prop :=
  (frames_in_use + needed <= recursion_limit)%nat.

(** A bound on the frames of [parse], also inside [evaluate]: the nested
    calls of [_expression], [_conjunction] and [_term], each of which spends
    a unit of the fuel of [parse] in the embedding, where it never runs out
    ([parse_enough_fuel]); the frames of [evaluate] and of [parse]; and two
    for the calls that do not recurse ([_ingest], the constructor of a
    node, the formatting of the message of the exception). *)
Definition parse_frames (p : Parser) : nat := parse_fuel p + 4.

(** The same for the parser that [Parser.__init__] makes of the tokens of
    a query, which it ends with the end marker. *)
Definition query_frames (tokens : list string) : nat :=
  3 * (length tokens + 1) + 6.

Fixpoint height (node : ParseTree) : nat :=
  match node with
  | BinOp l _ r => S (Nat.max (height l) (height r))
  | Term _ => 1
  | UnaryOp _ child => S (height child)
  end.

(** A bound on the frames of the visit of a tree inside [evaluate]:
    [_visit] and the method it dispatches to for every level of the tree,
    the frame of [evaluate], and the one of [add_postings] at a leaf. *)
Definition visit_frames (node : ParseTree) : nat := 2 * height node + 2.

End RecursionLimit.

(** ** For the ranker *)
Section RankingMoreVocabulary.
Import BM25 BM25Spec.
Context {num : Type} {float : PyFloat num}.
Context {EvaluationResult : Type} {aggregator : Aggregator num EvaluationResult}.

(** The ranker with another query. *)
Definition with_query (self : RankedSearchBM25 num) (q : list string)
    : RankedSearchBM25 num :=
  {| query := q; index := index self; k1 := k1 self; b := b self |}.

(** The tokens of the query that the index knows. *)
Definition known_query (self : RankedSearchBM25 num) : list string :=
  filter (fun t => is_Some (get_postings (index self) t)) (query self).

(** The aggregator after one [add_postings] for each token of [ts] that the
    index knows, under the token itself, with the postings of its object. *)
Definition registered_by_token (self : RankedSearchBM25 num) (ts : list string)
    (results : EvaluationResult) : EvaluationResult :=
  fold_left
    (fun results t =>
       match get_postings (index self) t with
       | Some r => add_postings t (postings (objects (index self) r)) results
       | None => results
       end)
    ts results.

(** The aggregator after one [add_postings] for each fetched object, under
    the last token of the query that fetched the object. *)
Definition registered_by_last (self : RankedSearchBM25 num)
    (results : EvaluationResult) : EvaluationResult :=
  fold_left
    (fun results r =>
       add_postings
         (default (term (objects (index self) r))
            (last_fetching (index self) r (query self)))
         (postings (objects (index self) r)) results)
    (fetched self) results.

(** An entry whose score is neither below nor above [s]. *)
Definition tied (s : num) (e : Z * num) : Prop :=
  ltb (snd e) s = false /\ ltb s (snd e) = false.

End RankingMoreVocabulary.

(** ** More sample inputs for the ranker *)
Module SampleRankingMore.
Import BM25.

(** An index that knows [ghost], with no posting, and [apple] and [apples],
    which share one object. *)
Definition index_shared : InvertedIndex QArith_base.Q :=
  {| objects := fun r =>
       match r with
       | O => {| term := "appl"; postings := [mkPosting 1 [0; 4]; mkPosting 2 [3]] |}
       | _ => {| term := "ghost"; postings := [] |}
       end;
     get_postings := fun t =>
       if String.eqb t "apple" then Some O
       else if String.eqb t "apples" then Some O
       else if String.eqb t "ghost" then Some (S O)
       else None;
     get_doc_count := 4;
     get_doclength := fun _ => 10;
     avg_doclength := QArith_base.inject_Z 0 |}.

Definition ranker_ghost : RankedSearchBM25 QArith_base.Q :=
  {| query := ["ghost"; "pear"]; index := index_shared;
     k1 := QArith_base.Qmake 6 5; b := QArith_base.Qmake 3 4 |}.

Definition ranker_pear : RankedSearchBM25 QArith_base.Q :=
  {| query := ["pear"]; index := index_shared;
     k1 := QArith_base.Qmake 6 5; b := QArith_base.Qmake 3 4 |}.

(** A query whose two tokens share an object. *)
Definition ranker_shared : RankedSearchBM25 QArith_base.Q :=
  {| query := ["apple"; "apples"]; index := index_shared;
     k1 := QArith_base.Qmake 6 5; b := QArith_base.Qmake 3 4 |}.

End SampleRankingMore.

(** ** Python's floats as a sample *)
Module SampleFloats.
Import PrimFloat.
Import BM25.

(** [float(z)]; exact for the integers below [2 ^ 53]. *)
Fixpoint float_of_positive (p : positive) : float :=
  match p with
  | xH => PrimFloat.one
  | xO p' => PrimFloat.mul PrimFloat.two (float_of_positive p')
  | xI p' =>
      PrimFloat.add (PrimFloat.mul PrimFloat.two (float_of_positive p')) PrimFloat.one
  end.

Definition float_of_Z (z : Z) : float :=
  match z with
  | Z0 => PrimFloat.zero
  | Zpos p => float_of_positive p
  | Zneg p => PrimFloat.opp (float_of_positive p)
  end.

(** The logarithm is not among the operations of binary64: [e - 1 + (2 m - 1)]
    for [x = m * 2 ^ e] with [1/2 <= m < 1] stands in for [math.log2], with
    which it agrees at the powers of two.  The examples below take the
    logarithm of 2 only. *)
Definition float_log2 (x : float) : float :=
  let (m, e) := FloatOps.Z.frexp x in
  PrimFloat.add (float_of_Z (e - 1))
    (PrimFloat.sub (PrimFloat.mul PrimFloat.two m) PrimFloat.one).

(** IEEE 754 binary64, the floats of CPython: the arithmetic rounds to
    nearest, overflows to an infinity and answers NaN for [inf / inf]; a
    division by zero and a logarithm of a number that is not positive
    raise. *)
Global Instance binary64 : PyFloat float := {|
  of_int := float_of_Z;
  add := PrimFloat.add;
  sub := PrimFloat.sub;
  mul := PrimFloat.mul;
  div := fun x y =>
    if PrimFloat.eqb y PrimFloat.zero then Raise ZeroDivisionError
    else Ok (PrimFloat.div x y);
  log2 := fun x =>
    if PrimFloat.leb x PrimFloat.zero then Raise ValueError
    else Ok (float_log2 x);
  ltb := PrimFloat.ltb
|}.

(** An aggregator that keeps what it is given. *)
Global Instance kept64 :
    Aggregator float (list (string * list Posting) * list (Z * float)) := {|
  EvaluationResult_new := ([], []);
  add_postings := fun t ps results => (fst results ++ [(t, ps)], snd results)%list;
  update_ranked_results := fun ranked results => (fst results, ranked)
|}.

(** Six documents, three of which hold the term of the query: document 1
    once in 10 words, document 2 twice in 100 words, document 3 once in 2
    words; the average length is 10. *)
Definition index_overflow : InvertedIndex float :=
  {| objects := fun r =>
       match r with
       | O => {| term := "appl";
                 postings := [mkPosting 1 [0]; mkPosting 2 [3; 7]; mkPosting 3 [1]] |}
       | _ => {| term := ""; postings := [] |}
       end;
     get_postings := fun t => if String.eqb t "apple" then Some O else None;
     get_doc_count := 6;
     get_doclength := fun d => if Z.eqb d 1 then 10 else if Z.eqb d 2 then 100 else 2;
     avg_doclength := float_of_Z 10 |}.

(** [RankedSearchBM25("apple", index, k1=1e308)]: with [tf = 2] both
    [(k1 + 1) * tf] and the denominator overflow, and the score of document
    2 is [inf / inf]. *)
Definition ranker_overflow : RankedSearchBM25 float :=
  {| query := ["apple"]; index := index_overflow;
     k1 := 0x1.1ccf385ebc8ap+1023%float; b := 0.75%float |}.

(** [[(1, 1.0), (2, nan), (3, 2.4999999999999996)]] *)
Definition score_3 : float := 0x1.3ffffffffffffp+1%float.

Definition ranked_overflow : list (Z * float) :=
  [(1, PrimFloat.one); (2, PrimFloat.nan); (3, score_3)].

(** The scored set [{1: 0.5, 2: 0.9, 3: 0.9}] in floats. *)
Definition scored_123 : list (Z * float) :=
  [(1, 0.5%float); (2, 0x1.ccccccccccccdp-1%float); (3, 0x1.ccccccccccccdp-1%float)].

End SampleFloats.

(** * Properties *)

(** ** The monad *)
Section MonadFacts.
Context {S A B : Type}.

Lemma bind_Ok_inv (m : M S A) (k : A -> M S B) s b s' :
  bind m k s = (Ok b, s') ->
  exists a s1, m s = (Ok a, s1) /\ k a s1 = (Ok b, s').
Proof.
  unfold bind. destruct (m s) as [[a|e|] s1]; intros H; try discriminate.
  exists a, s1. split; [reflexivity | exact H].
Qed.

Lemma bind_Ok (m : M S A) (k : A -> M S B) s a s1 :
  m s = (Ok a, s1) -> bind m k s = k a s1.
Proof. unfold bind. intros ->. reflexivity. Qed.

(** A property of the state that every step preserves is preserved by the
    sequence, whatever the outcome. *)
Lemma bind_preserves (P : S -> S -> Prop) (m : M S A) (k : A -> M S B) s :
  (forall s1 s2 s3, P s1 s2 -> P s2 s3 -> P s1 s3) ->
  P s (snd (m s)) ->
  (forall a s1, m s = (Ok a, s1) -> P s1 (snd (k a s1))) ->
  P s (snd (bind m k s)).
Proof.
  intros Htrans Hm Hk. unfold bind.
  destruct (m s) as [[a|e|] s1] eqn:E; simpl in *; try exact Hm.
  eapply Htrans; [exact Hm | apply Hk; reflexivity].
Qed.
End MonadFacts.

(** ** The result aggregator of [expression_eval.py] *)
Section AggregatorFacts.
Import Boolean.
Import EvaluationResult.

Lemma record_term_lookup term tm p d :
  default [] (record_term term tm p !! d) =
  (default [] (tm !! d) ++ if decide (docid p = d) then [term] else [])%list.
Proof.
  unfold record_term.
  destruct (decide (docid p = d)) as [->|Hne].
  - destruct (tm !! d) as [l|] eqn:E.
    + rewrite lookup_alter_eq, E. reflexivity.
    + rewrite lookup_alter_eq, lookup_insert_eq. reflexivity.
  - rewrite app_nil_r.
    destruct (tm !! docid p) as [l|] eqn:E.
    + rewrite lookup_alter_ne by done. reflexivity.
    + rewrite lookup_alter_ne, lookup_insert_ne by done. reflexivity.
Qed.

Lemma record_terms_lookup term ps : forall tm d,
  default [] (fold_left (record_term term) ps tm !! d) =
  (default [] (tm !! d) ++ repeat term (occurrences d ps))%list.
Proof.
  unfold occurrences.
  induction ps as [|p ps IH]; intros tm d; simpl.
  - rewrite app_nil_r. reflexivity.
  - rewrite IH, record_term_lookup, filter_cons.
    destruct (decide (docid p = d)); simpl.
    + rewrite <- app_assoc. reflexivity.
    + rewrite app_nil_r. reflexivity.
Qed.

Lemma get_terms_default d self : get_terms d self = default [] (term_map self !! d).
Proof. unfold get_terms. destruct (term_map self !! d); reflexivity. Qed.

Lemma get_terms_add_postings term ps self d :
  get_terms d (add_postings term ps self) =
  (get_terms d self ++ repeat term (occurrences d ps))%list.
Proof. rewrite !get_terms_default. simpl. apply record_terms_lookup. Qed.

End AggregatorFacts.

(** ** Facts about the modelled [search] functions *)
Section SearchFacts.

Lemma merge_nil_r a : search.merge a [] = a.
Proof. destruct a; reflexivity. Qed.

Lemma union_absent_l b : search.union None b = default [] b.
Proof. reflexivity. Qed.

Lemma union_absent_r a : search.union a None = default [] a.
Proof. unfold search.union. simpl. apply merge_nil_r. Qed.

Lemma docids_singleton ps d :
  docids ps = [d] -> exists pos, ps = [mkPosting d pos].
Proof.
  destruct ps as [|[d' pos] [|? ?]]; simpl; intros H; inversion H; subst.
  exists pos. reflexivity.
Qed.

End SearchFacts.

(** ** The boolean evaluator *)
Section EvaluatorFacts.
Import Boolean.

Lemma on_eval_result_spec f self :
  on_eval_result f self =
  (Ok tt, {| _parser := _parser self; _index := _index self;
             eval_result := f (eval_result self) |}).
Proof. reflexivity. Qed.

Lemma _visit_term_spec tok self :
  _visit_term tok self =
  (Ok (InvertedIndex.get_postings (_index self) (value tok)),
   {| _parser := _parser self; _index := _index self;
      eval_result :=
        EvaluationResult.add_postings (value tok)
          (default [] (InvertedIndex.get_postings (_index self) (value tok)))
          (eval_result self) |}).
Proof.
  unfold _visit_term, bind, gets, ret. simpl.
  destruct (InvertedIndex.get_postings (_index self) (value tok)); reflexivity.
Qed.

Lemma _visit_Term tok self :
  _visit (Term tok) self =
  (Ok (InvertedIndex.get_postings (_index self) (value tok)),
   {| _parser := _parser self; _index := _index self;
      eval_result :=
        EvaluationResult.add_postings (value tok)
          (default [] (InvertedIndex.get_postings (_index self) (value tok)))
          (eval_result self) |}).
Proof. apply _visit_term_spec. Qed.

(** The equations of [_visit] on the two kinds of binary node. *)
Lemma _visit_AND l op r self :
  type op = AND ->
  _visit (BinOp l op r) self =
  (let* left_postings := _visit l in
   let* right_postings := _visit r in
   match left_postings, right_postings with
   | None, None => ret None
   | None, Some _ => ret right_postings
   | Some _, None => ret left_postings
   | Some a, Some b => ret (Some (search.intersect a b))
   end) self.
Proof. intros H. simpl. unfold _visit_binop. rewrite H. reflexivity. Qed.

Lemma _visit_OR l op r self :
  type op = OR ->
  _visit (BinOp l op r) self =
  (let* a := _visit l in
   let* b := _visit r in
   ret (Some (search.union a b))) self.
Proof. intros H. simpl. unfold _visit_binop. rewrite H. reflexivity. Qed.

(** A visit changes neither the parser nor the index, whatever its
    outcome. *)
Lemma _visit_frame node : forall self,
  _parser (snd (_visit node self)) = _parser self /\
  _index (snd (_visit node self)) = _index self.
Proof.
  pose (P := fun s1 s2 : Evaluator =>
               _parser s2 = _parser s1 /\ _index s2 = _index s1).
  assert (Htrans : forall s1 s2 s3, P s1 s2 -> P s2 s3 -> P s1 s3).
  { unfold P. intros s1 s2 s3 [-> ->] [-> ->]. split; reflexivity. }
  induction node as [l IHl op r IHr | tok | op child IH]; intros self.
  - simpl. unfold _visit_binop.
    destruct (type op); try (split; reflexivity).
    + apply (bind_preserves P); [exact Htrans | apply IHl |].
      intros lp s1 _.
      apply (bind_preserves P); [exact Htrans | apply IHr |].
      intros rp s2 _. split; reflexivity.
    + apply (bind_preserves P); [exact Htrans | apply IHl |].
      intros lp s1 _.
      apply (bind_preserves P); [exact Htrans | apply IHr |].
      intros rp s2 _. destruct lp, rp; split; reflexivity.
  - simpl. rewrite _visit_term_spec. split; reflexivity.
  - simpl. unfold _visit_unaryop.
    apply (bind_preserves P); [exact Htrans | split; reflexivity |].
    intros u s1 _.
    apply (bind_preserves P); [exact Htrans | apply IH |].
    intros rp s2 _. split; reflexivity.
Qed.

(** A visit that returns has visited every leaf once, from left to
    right. *)
Lemma _visit_term_map node : forall self r self',
  _visit node self = (Ok r, self') ->
  forall d,
    EvaluationResult.get_terms d (eval_result self') =
    (EvaluationResult.get_terms d (eval_result self) ++
     flat_map (recorded (_index self) d) (tree_terms node))%list.
Proof.
  induction node as [l IHl op r IHr | tok | op child IH]; intros self res self' H d.
  - simpl in H. unfold _visit_binop in H.
    destruct (type op) eqn:Hop; try discriminate.
    + apply bind_Ok_inv in H as (lp & s1 & Hl & H).
      apply bind_Ok_inv in H as (rp & s2 & Hr & H).
      inversion H; subst.
      simpl. rewrite flat_map_app, app_assoc.
      rewrite (IHr _ _ _ Hr d), (IHl _ _ _ Hl d).
      pose proof (_visit_frame l self) as [_ Hi]. rewrite Hl in Hi. simpl in Hi.
      rewrite Hi. reflexivity.
    + apply bind_Ok_inv in H as (lp & s1 & Hl & H).
      apply bind_Ok_inv in H as (rp & s2 & Hr & H).
      assert (self' = s2) as -> by (destruct lp, rp; inversion H; reflexivity).
      simpl. rewrite flat_map_app, app_assoc.
      rewrite (IHr _ _ _ Hr d), (IHl _ _ _ Hl d).
      pose proof (_visit_frame l self) as [_ Hi]. rewrite Hl in Hi. simpl in Hi.
      rewrite Hi. reflexivity.
  - simpl in H. rewrite _visit_term_spec in H. inversion H; subst. simpl.
    rewrite get_terms_add_postings, app_nil_r. reflexivity.
  - simpl in H. unfold _visit_unaryop in H.
    apply bind_Ok_inv in H as (u & s1 & Hu & H).
    inversion Hu; subst.
    apply bind_Ok_inv in H as (rp & s2 & Hr & H).
    inversion H; subst.
    simpl. apply (IH _ _ _ Hr d).
Qed.

Lemma occurrences_pos d ps : (0 < occurrences d ps)%nat <-> d ∈ docids ps.
Proof.
  unfold occurrences, docids.
  induction ps as [|p ps IH]; simpl.
  - split; [lia | intros H; inversion H].
  - rewrite filter_cons, elem_of_cons.
    destruct (decide (docid p = d)) as [->|Hne]; simpl.
    + split; [intros _; left; reflexivity | lia].
    + rewrite IH. split; [intros H; right; exact H | intros [H|H]; congruence].
Qed.

Lemma elem_of_recorded index d ts t :
  t ∈ flat_map (recorded index d) ts <->
  t ∈ ts /\ d ∈ docids (default [] (InvertedIndex.get_postings index t)).
Proof.
  rewrite <- occurrences_pos, !list_elem_of_In, in_flat_map.
  unfold recorded. split.
  - intros (t' & Hin & Hrep). apply repeat_spec in Hrep as Heq. subst t'.
    split; [exact Hin |].
    destruct (occurrences d _); [inversion Hrep | lia].
  - intros [Hin Hpos]. exists t. split; [exact Hin |].
    destruct (occurrences d _); [lia | left; reflexivity].
Qed.

(** An evaluation leaves the index of the evaluator as it is, whatever
    its outcome. *)
Lemma evaluate_index_frame self : _index (snd (evaluate self)) = _index self.
Proof.
  pose (P := fun s1 s2 : Evaluator => _index s2 = _index s1).
  assert (Htrans : forall s1 s2 s3, P s1 s2 -> P s2 s3 -> P s1 s3).
  { unfold P. intros s1 s2 s3 -> ->. reflexivity. }
  unfold evaluate.
  apply (bind_preserves P); [exact Htrans | reflexivity |]. intros _ s0 _.
  apply (bind_preserves P); [exact Htrans | |].
  { unfold P, on_parser. destruct (parse (_parser s0)). reflexivity. }
  intros tree s1 _.
  apply (bind_preserves P); [exact Htrans | apply _visit_frame |].
  intros r s2 _.
  apply (bind_preserves P); [exact Htrans | reflexivity |]. intros _ s3 _.
  reflexivity.
Qed.

(** [evaluate], read backwards from a result. *)
Lemma evaluate_Ok_inv self res self' :
  evaluate self = (Ok res, self') ->
  exists tree parser' r s2,
    parse (_parser self) = (Ok tree, parser') /\
    _visit tree (mkEvaluator parser' (_index self) EvaluationResult.new) = (Ok r, s2) /\
    res = EvaluationResult.update_results (default [] r) (eval_result s2).
Proof.
  unfold evaluate. intros H.
  apply bind_Ok_inv in H as ([] & s0 & H0 & H). inversion H0; subst; clear H0.
  apply bind_Ok_inv in H as (tree & s1 & Hp & H).
  unfold on_parser in Hp. cbn [_parser _index eval_result] in Hp.
  destruct (parse (_parser self)) as [rp parser'] eqn:Ep.
  inversion Hp; subst; clear Hp.
  apply bind_Ok_inv in H as (r & s2 & Hv & H).
  apply bind_Ok_inv in H as ([] & s3 & Hu & H).
  inversion Hu; subst; clear Hu. inversion H; subst; clear H.
  exists tree, parser', r, s2. split; [reflexivity |]. split; [exact Hv |].
  destruct r; reflexivity.
Qed.

End EvaluatorFacts.

(** ** The lexer and the parser on queries of a given shape *)
Section ParserFacts.
Import Boolean.

Lemma lex1_value t : value (lex1 t) = t.
Proof. unfold lex1. repeat destruct (String.eqb _ _); reflexivity. Qed.

Lemma lex1_TERM t : type (lex1 t) = TERM -> lex1 t = mkToken t TERM.
Proof.
  intros H. pose proof (lex1_value t) as Hv.
  destruct (lex1 t) as [v ty]. simpl in *. congruence.
Qed.

(** An ingest of the wrong kind of token raises the parser's exception,
    with the expected and the received kind in its message. *)
Lemma _ingest_mismatch ty (p : Parser) :
  type (_current_token p) <> ty ->
  _ingest ty p =
  (Raise (ExpressionParserException (syntax_message ty (type (_current_token p)))), p).
Proof.
  intros H. unfold _ingest, bind, gets.
  destruct (decide (type (_current_token p) = ty)); [contradiction | reflexivity].
Qed.

(** [_term] on a token that starts no term: no branch is taken, and the
    exception is not the parser's. *)
Lemma _term_no_branch fuel (p : Parser) :
  type (_current_token p) <> NOT ->
  type (_current_token p) <> TERM ->
  type (_current_token p) <> LPAREN ->
  _term (S fuel) p = (Raise (UnboundLocalError "node"), p).
Proof.
  intros H1 H2 H3. cbn [_term]. unfold bind, gets.
  destruct (type (_current_token p)); try contradiction; reflexivity.
Qed.

(** A parenthesis that is not closed does meet an ingest point. *)
Example unclosed_parenthesis_raises :
  parse_expression split_spaces "( a OR b" =
  Raise (ExpressionParserException
           "Invalid Syntax. Expected type: TokenType.RPAREN, received: TokenType.EOF").
Proof. reflexivity. Qed.

(** Parentheses override the precedence: [( a OR b ) AND c] with [a] in
    document 1, [b] and [c] in document 2 yields document 2. *)
Example parentheses_override_precedence :
  parse_expression split_spaces "( a OR b ) AND c" =
    Ok (BinOp
          (BinOp (Term (mkToken "a" TERM)) (mkToken "OR" OR) (Term (mkToken "b" TERM)))
          (mkToken "AND" AND) (Term (mkToken "c" TERM))) /\
  res_map (fun res => docids <$> EvaluationResult.query_result res)
    (boolean_query split_spaces "( a OR b ) AND c" Sample.index_abc) =
  Ok (Some [2]).
Proof. split; vm_compute; reflexivity. Qed.

Variable word_tokenize : string -> list string.

Lemma parse_a_OR_b_AND_c q a b c :
  word_tokenize q = [a; "OR"; b; "AND"; c] ->
  type (lex1 a) = TERM -> type (lex1 b) = TERM -> type (lex1 c) = TERM ->
  exists parser parser',
    Parser_init word_tokenize q = Ok parser /\
    parse parser =
    (Ok (BinOp (Term (mkToken a TERM)) (mkToken "OR" OR)
           (BinOp (Term (mkToken b TERM)) (mkToken "AND" AND)
              (Term (mkToken c TERM)))), parser').
Proof.
  intros Hq Ha Hb Hc. unfold Parser_init. rewrite Hq. simpl.
  rewrite (lex1_TERM a Ha), (lex1_TERM b Hb), (lex1_TERM c Hc).
  eexists _, _. split; reflexivity.
Qed.

Lemma parse_x_AND_y q x y :
  word_tokenize q = [x; "AND"; y] ->
  type (lex1 x) = TERM -> type (lex1 y) = TERM ->
  exists parser parser',
    Parser_init word_tokenize q = Ok parser /\
    parse parser =
    (Ok (BinOp (Term (mkToken x TERM)) (mkToken "AND" AND)
           (Term (mkToken y TERM))), parser').
Proof.
  intros Hq Hx Hy. unfold Parser_init. rewrite Hq. simpl.
  rewrite (lex1_TERM x Hx), (lex1_TERM y Hy).
  eexists _, _. split; reflexivity.
Qed.

(** [evaluate], once the parse and the visit of the tree are known. *)
Lemma evaluate_spec index parser parser' tree r self' :
  parse parser = (Ok tree, parser') ->
  _visit tree (mkEvaluator parser' index EvaluationResult.new) = (Ok r, self') ->
  fst (evaluate (Evaluator_init parser index)) =
  Ok (EvaluationResult.update_results (default [] r) (eval_result self')).
Proof.
  intros Hp Hv. unfold evaluate, Evaluator_init.
  rewrite (bind_Ok _reset _ _ tt (mkEvaluator parser index EvaluationResult.new))
    by reflexivity.
  rewrite (bind_Ok (on_parser parse) _ _ tree
             (mkEvaluator parser' index EvaluationResult.new))
    by (unfold on_parser; cbn [_parser]; rewrite Hp; reflexivity).
  rewrite (bind_Ok (_visit tree) _ _ r self' Hv).
  destruct r; reflexivity.
Qed.

Lemma parse_a_AND q a :
  word_tokenize q = [a; "AND"] ->
  type (lex1 a) = TERM ->
  exists parser parser',
    Parser_init word_tokenize q = Ok parser /\
    parse parser = (Raise (UnboundLocalError "node"), parser').
Proof.
  intros Hq Ha. unfold Parser_init. rewrite Hq. simpl.
  rewrite (lex1_TERM a Ha).
  eexists _, _. split; reflexivity.
Qed.

Lemma evaluate_parse_raises index parser parser' e :
  parse parser = (Raise e, parser') ->
  fst (evaluate (Evaluator_init parser index)) = Raise e.
Proof.
  intros Hp. unfold evaluate, Evaluator_init.
  rewrite (bind_Ok _reset _ _ tt (mkEvaluator parser index EvaluationResult.new))
    by reflexivity.
  unfold bind at 1, on_parser. cbn [_parser]. rewrite Hp. reflexivity.
Qed.

End ParserFacts.

(** ** The parser: termination and the grammar *)
Section ParserTotal.
Import Boolean.

Lemma wp_bind {S A B} F (m : M S A) (k : A -> M S B) s Q :
  wp F m s (fun a s' => wp F (k a) s' Q) -> wp F (bind m k) s Q.
Proof. unfold wp, bind. destruct (m s) as [[a|e|] s']; auto. Qed.

Lemma wp_mono {S A} F (m : M S A) s (Q Q' : A -> S -> Prop) :
  wp F m s Q -> (forall a s', Q a s' -> Q' a s') -> wp F m s Q'.
Proof. unfold wp. destruct (m s) as [[a|e|] s']; auto. Qed.

Lemma wp_ingest F ty (p : Parser) (Q : unit -> Parser -> Prop) :
  (forall p',
      type (_current_token p) = ty ->
      _current_token p :: _tokens_stream p =
        _current_token p :: _current_token p' :: _tokens_stream p' ->
      Q tt p') ->
  wp F (_ingest ty) p Q.
Proof.
  intros H. unfold wp, _ingest, bind, gets, advance, raise.
  destruct (decide (type (_current_token p) = ty)) as [Hty|]; [| exact I].
  destruct (_tokens_stream p) as [|t rest] eqn:E; [exact I |].
  apply H; [exact Hty |]. simpl. reflexivity.
Qed.

(** With [3 * tokens_left + 2] units of fuel [_expression] does not run
    out; the bounds for the other functions are those of the induction. *)
Lemma parser_fuel fuel : forall p : Parser,
  (3 * tokens_left p <= fuel ->
   wp False (_term fuel) p (fun _ p' => tokens_left p' < tokens_left p))%nat /\
  (3 * tokens_left p + 1 <= fuel ->
   wp False (_conjunction fuel) p (fun _ p' => tokens_left p' < tokens_left p))%nat /\
  (3 * tokens_left p <= fuel + 2 ->
   forall node,
     wp False (_conjunction_while fuel node) p
       (fun _ p' => tokens_left p' <= tokens_left p))%nat /\
  (3 * tokens_left p + 2 <= fuel ->
   wp False (_expression fuel) p (fun _ p' => tokens_left p' < tokens_left p))%nat /\
  (3 * tokens_left p <= fuel + 1 ->
   forall node,
     wp False (_expression_while fuel node) p
       (fun _ p' => tokens_left p' <= tokens_left p))%nat.
Proof.
  induction fuel as [|fuel IH]; intros p.
  { unfold tokens_left. repeat split; intros; lia. }
  assert (Hstep : forall p p' : Parser,
             _current_token p :: _tokens_stream p =
               _current_token p :: _current_token p' :: _tokens_stream p' ->
             tokens_left p = S (tokens_left p')).
  { intros q q' H. inversion H as [H']. unfold tokens_left. rewrite H'. reflexivity. }
  split; [| split; [| split; [| split]]].
  - (* _term *)
    intros Hf. cbn [_term]. apply wp_bind. unfold wp at 1, gets.
    destruct (type (_current_token p)) eqn:Hty; try exact I.
    + apply wp_bind, wp_ingest. intros p1 _ H1. apply Hstep in H1.
      unfold wp, ret; cbv beta in *; lia.
    + apply wp_bind, wp_ingest. intros p1 _ H1. apply Hstep in H1.
      apply wp_bind.
      eapply wp_mono; [apply (proj1 (IH p1)); lia |].
      intros child p2 H2. cbv beta in *. unfold wp, ret; cbv beta in *; lia.
    + apply wp_bind, wp_ingest. intros p1 _ H1. apply Hstep in H1.
      apply wp_bind.
      eapply wp_mono; [apply (proj1 (proj2 (proj2 (proj2 (IH p1))))); lia |].
      intros node p2 H2. cbv beta in *.
      apply wp_bind, wp_ingest. intros p3 _ H3. apply Hstep in H3.
      unfold wp, ret; cbv beta in *; lia.
  - (* _conjunction *)
    intros Hf. cbn [_conjunction]. apply wp_bind.
    eapply wp_mono; [apply (proj1 (IH p)); lia |].
    intros node p1 H1. cbv beta in *.
    eapply wp_mono; [apply (proj1 (proj2 (proj2 (IH p1)))); lia |].
    intros t p2 H2. cbv beta in *. cbv beta in *; lia.
  - (* _conjunction_while *)
    intros Hf node. cbn [_conjunction_while]. apply wp_bind. unfold wp at 1, gets.
    destruct (decide (type (_current_token p) = AND)); [| unfold wp, ret; cbv beta in *; lia].
    apply wp_bind, wp_ingest. intros p1 _ H1. apply Hstep in H1.
    apply wp_bind.
    eapply wp_mono; [apply (proj1 (IH p1)); lia |].
    intros right p2 H2. cbv beta in *.
    eapply wp_mono; [apply (proj1 (proj2 (proj2 (IH p2)))); lia |].
    intros t p3 H3. cbv beta in *. cbv beta in *; lia.
  - (* _expression *)
    intros Hf. cbn [_expression]. apply wp_bind.
    eapply wp_mono; [apply (proj1 (proj2 (IH p))); lia |].
    intros node p1 H1. cbv beta in *.
    eapply wp_mono; [apply (proj2 (proj2 (proj2 (proj2 (IH p1))))); lia |].
    intros t p2 H2. cbv beta in *. cbv beta in *; lia.
  - (* _expression_while *)
    intros Hf node. cbn [_expression_while]. apply wp_bind. unfold wp at 1, gets.
    destruct (decide (type (_current_token p) = OR)); [| unfold wp, ret; cbv beta in *; lia].
    apply wp_bind, wp_ingest. intros p1 _ H1. apply Hstep in H1.
    apply wp_bind.
    eapply wp_mono; [apply (proj1 (proj2 (IH p1))); lia |].
    intros right p2 H2. cbv beta in *.
    eapply wp_mono; [apply (proj2 (proj2 (proj2 (proj2 (IH p2))))); lia |].
    intros t p3 H3. cbv beta in *. cbv beta in *; lia.
Qed.

(** [parse] never exhausts the fuel it takes: the bound on the recursion
    is not observable. *)
Lemma parse_enough_fuel (p : Parser) : fst (parse p) <> OutOfFuel.
Proof.
  pose proof (proj1 (proj2 (proj2 (proj2 (parser_fuel (parse_fuel p) p))))) as H.
  unfold parse. unfold wp in H.
  destruct (_expression (parse_fuel p) p) as [[t|e|] p'] eqn:E; simpl; try discriminate.
  exfalso. apply H. unfold parse_fuel. lia.
Qed.

End ParserTotal.

Section ParserGrammar.
Import Boolean.

Lemma parser_sound fuel : forall p : Parser,
  wp True (_term fuel) p (consumed derives_term p) /\
  wp True (_conjunction fuel) p (consumed derives_conjunction p) /\
  (forall node,
      wp True (_conjunction_while fuel node) p
        (consumed (fun ts t =>
                     forall pre, derives_conjunction pre node ->
                                 derives_conjunction (pre ++ ts) t) p)) /\
  wp True (_expression fuel) p (consumed derives_expression p) /\
  (forall node,
      wp True (_expression_while fuel node) p
        (consumed (fun ts t =>
                     forall pre, derives_expression pre node ->
                                 derives_expression (pre ++ ts) t) p)).
Proof.
  induction fuel as [|fuel IH]; intros p.
  { repeat split; intros; exact I. }
  split; [| split; [| split; [| split]]].
  - (* _term *)
    cbn [_term]. apply wp_bind. unfold wp at 1, gets.
    destruct (type (_current_token p)) eqn:Hty; try exact I.
    + apply wp_bind, wp_ingest. intros p1 _ H1.
      unfold wp, ret. exists [_current_token p].
      split; [exact H1 | apply derives_TERM, Hty].
    + apply wp_bind, wp_ingest. intros p1 _ H1.
      apply wp_bind. eapply wp_mono; [apply (proj1 (IH p1)) |].
      intros child p2 (ts & H2 & Hd). unfold wp, ret.
      exists (_current_token p :: ts). split.
      * fold (remaining p1) in H1. unfold remaining at 1. rewrite H1, H2. reflexivity.
      * apply derives_NOT; assumption.
    + apply wp_bind, wp_ingest. intros p1 _ H1.
      apply wp_bind.
      eapply wp_mono; [apply (proj1 (proj2 (proj2 (proj2 (IH p1))))) |].
      intros node p2 (ts & H2 & Hd).
      apply wp_bind, wp_ingest. intros p3 Hr H3.
      unfold wp, ret. exists (_current_token p :: ts ++ [_current_token p2])%list.
      split.
      * fold (remaining p1) in H1. fold (remaining p2) in H3. fold (remaining p3) in H3.
        unfold remaining at 1. rewrite H1, H2, H3. simpl.
        rewrite <- app_assoc. reflexivity.
      * apply derives_paren; assumption.
  - (* _conjunction *)
    cbn [_conjunction]. apply wp_bind. eapply wp_mono; [apply (proj1 (IH p)) |].
    intros node p1 (ts1 & H1 & Hd1).
    eapply wp_mono; [apply (proj1 (proj2 (proj2 (IH p1)))) |].
    intros t p2 (ts2 & H2 & Hd2).
    exists (ts1 ++ ts2)%list. split.
    * rewrite H1, H2, app_assoc. reflexivity.
    * apply Hd2, derives_conjunction_term, Hd1.
  - (* _conjunction_while *)
    intros node. cbn [_conjunction_while]. apply wp_bind. unfold wp at 1, gets.
    destruct (decide (type (_current_token p) = AND)) as [Hand|].
    2:{ unfold wp, ret. exists []. split; [reflexivity |].
        intros pre Hpre. rewrite app_nil_r. exact Hpre. }
    apply wp_bind, wp_ingest. intros p1 _ H1.
    apply wp_bind. eapply wp_mono; [apply (proj1 (IH p1)) |].
    intros right p2 (ts2 & H2 & Hd2).
    eapply wp_mono; [apply (proj1 (proj2 (proj2 (IH p2)))) |].
    intros t p3 (ts3 & H3 & Hd3).
    exists (_current_token p :: ts2 ++ ts3)%list. split.
    * fold (remaining p1) in H1. unfold remaining at 1.
      rewrite H1, H2, H3. simpl. rewrite app_assoc. reflexivity.
    * intros pre Hpre.
      replace (pre ++ _current_token p :: ts2 ++ ts3)%list
        with ((pre ++ _current_token p :: ts2) ++ ts3)%list
        by (rewrite <- app_assoc; reflexivity).
      apply Hd3, derives_AND; assumption.
  - (* _expression *)
    cbn [_expression]. apply wp_bind.
    eapply wp_mono; [apply (proj1 (proj2 (IH p))) |].
    intros node p1 (ts1 & H1 & Hd1).
    eapply wp_mono; [apply (proj2 (proj2 (proj2 (proj2 (IH p1))))) |].
    intros t p2 (ts2 & H2 & Hd2).
    exists (ts1 ++ ts2)%list. split.
    * rewrite H1, H2, app_assoc. reflexivity.
    * apply Hd2, derives_expression_conjunction, Hd1.
  - (* _expression_while *)
    intros node. cbn [_expression_while]. apply wp_bind. unfold wp at 1, gets.
    destruct (decide (type (_current_token p) = OR)) as [Hor|].
    2:{ unfold wp, ret. exists []. split; [reflexivity |].
        intros pre Hpre. rewrite app_nil_r. exact Hpre. }
    apply wp_bind, wp_ingest. intros p1 _ H1.
    apply wp_bind. eapply wp_mono; [apply (proj1 (proj2 (IH p1))) |].
    intros right p2 (ts2 & H2 & Hd2).
    eapply wp_mono; [apply (proj2 (proj2 (proj2 (proj2 (IH p2))))) |].
    intros t p3 (ts3 & H3 & Hd3).
    exists (_current_token p :: ts2 ++ ts3)%list. split.
    * fold (remaining p1) in H1. unfold remaining at 1.
      rewrite H1, H2, H3. simpl. rewrite app_assoc. reflexivity.
    * intros pre Hpre.
      replace (pre ++ _current_token p :: ts2 ++ ts3)%list
        with ((pre ++ _current_token p :: ts2) ++ ts3)%list
        by (rewrite <- app_assoc; reflexivity).
      apply Hd3, derives_OR; assumption.
Qed.

(** A tree that [parse] returns derives, as an [expression] of the
    grammar, the tokens that [parse] has consumed. *)
Lemma parse_sound (p p' : Parser) (tree : ParseTree) :
  parse p = (Ok tree, p') ->
  exists ts, remaining p = (ts ++ remaining p')%list /\ derives_expression ts tree.
Proof.
  intros H.
  pose proof (proj1 (proj2 (proj2 (proj2 (parser_sound (parse_fuel p) p))))) as Hs.
  unfold wp in Hs. unfold parse in H. rewrite H in Hs. exact Hs.
Qed.

End ParserGrammar.

(** ** The accumulators of [_search_scored] *)
Section AccumulatorFacts.
Import BM25 BM25Spec.
Context {num : Type} {float : PyFloat num}.

Lemma acc_set_fresh d x (acc : list (Z * num)) :
  acc_get d acc = None -> acc_set d x acc = (acc ++ [(d, x)])%list.
Proof.
  induction acc as [|[d' y] acc IH]; simpl; [reflexivity |].
  destruct (decide (d' = d)); [discriminate |].
  intros H. rewrite (IH H). reflexivity.
Qed.

Lemma acc_get_snoc d x (acc : list (Z * num)) :
  acc_get d acc = None -> acc_get d (acc ++ [(d, x)]) = Some x.
Proof.
  induction acc as [|[d' y] acc IH]; simpl.
  - intros _. destruct (decide (d = d)); [reflexivity | contradiction].
  - destruct (decide (d' = d)); [discriminate | exact IH].
Qed.

Lemma acc_set_snoc d x y (acc : list (Z * num)) :
  acc_get d acc = None ->
  acc_set d y (acc ++ [(d, x)]) = (acc ++ [(d, y)])%list.
Proof.
  induction acc as [|[d' z] acc IH]; simpl.
  - intros _. destruct (decide (d = d)); [reflexivity | contradiction].
  - destruct (decide (d' = d)); [discriminate |].
    intros H. rewrite (IH H). reflexivity.
Qed.

Lemma accumulate1_present acc d w x :
  acc_get d acc = Some x ->
  accumulate1 acc (d, w) = acc_set d (add x w) acc.
Proof. unfold accumulate1. simpl. intros H. rewrite !H. reflexivity. Qed.

Lemma accumulate1_absent acc d w :
  acc_get d acc = None ->
  accumulate1 acc (d, w) = (acc ++ [(d, add (of_int 0) w)])%list.
Proof.
  unfold accumulate1. simpl. intros H. rewrite H.
  rewrite (acc_set_fresh d (of_int 0) acc H).
  rewrite (acc_get_snoc d (of_int 0) acc H). simpl.
  apply acc_set_snoc, H.
Qed.

(** Accumulators given by a function on a list of keys. *)
Lemma acc_get_map (g : Z -> num) keys d :
  acc_get d (map (fun k => (k, g k)) keys) =
  if decide (d ∈ keys) then Some (g d) else None.
Proof.
  induction keys as [|k keys IH]; simpl.
  - destruct (decide (d ∈ [])) as [H|H]; [inversion H | reflexivity].
  - destruct (decide (k = d)) as [->|Hne].
    + destruct (decide (d ∈ d :: keys)) as [H|H]; [reflexivity |].
      exfalso. apply H. left.
    + rewrite IH.
      destruct (decide (d ∈ keys)) as [H|H];
        destruct (decide (d ∈ k :: keys)) as [H'|H']; try reflexivity.
      * exfalso. apply H'. right. exact H.
      * exfalso. apply elem_of_cons in H' as [->|H']; [apply Hne; reflexivity | auto].
Qed.

Lemma acc_set_map (g : Z -> num) keys d x :
  NoDup keys -> d ∈ keys ->
  acc_set d x (map (fun k => (k, g k)) keys) =
  map (fun k => (k, if decide (k = d) then x else g k)) keys.
Proof.
  induction keys as [|k keys IH]; intros Hnd Hin; [inversion Hin |].
  apply NoDup_cons in Hnd as [Hk Hnd]. simpl.
  destruct (decide (k = d)) as [->|Hne].
  - f_equal. apply map_ext_in. intros k Hk'.
    destruct (decide (k = d)) as [->|]; [| reflexivity].
    exfalso. apply Hk, list_elem_of_In, Hk'.
  - f_equal. apply IH; [exact Hnd |].
    apply elem_of_cons in Hin as [->|Hin]; [contradiction | exact Hin].
Qed.

(** *** First occurrences *)

Lemma elem_of_first_occurrences l d : d ∈ first_occurrences l <-> d ∈ l.
Proof.
  induction l as [|a l IH]; simpl; [reflexivity |].
  rewrite !elem_of_cons, list_elem_of_filter, IH.
  destruct (decide (d = a)); tauto.
Qed.

Lemma NoDup_first_occurrences l : NoDup (first_occurrences l).
Proof.
  induction l as [|a l IH]; simpl; [constructor |].
  apply NoDup_cons. split.
  - rewrite list_elem_of_filter. tauto.
  - apply NoDup_filter, IH.
Qed.

Lemma first_occurrences_snoc l d :
  first_occurrences (l ++ [d]) =
  if decide (d ∈ l) then first_occurrences l
  else (first_occurrences l ++ [d])%list.
Proof.
  induction l as [|a l IH]; simpl.
  - destruct (decide (d ∈ [])) as [H|_]; [inversion H | reflexivity].
  - rewrite IH.
    destruct (decide (d ∈ l)) as [Hin|Hnin].
    + destruct (decide (d ∈ a :: l)) as [_|H]; [reflexivity |].
      exfalso. apply H. right. exact Hin.
    + rewrite filter_app, filter_cons, filter_nil.
      destruct (decide (d = a)) as [->|Hne].
      * destruct (decide (a ∈ a :: l)) as [_|H]; [| exfalso; apply H; left].
        destruct (decide (a <> a)); [contradiction |].
        rewrite app_nil_r. reflexivity.
      * destruct (decide (d ∈ a :: l)) as [H|_].
        { apply elem_of_cons in H as [H|H]; contradiction. }
        destruct (decide (d <> a)); [reflexivity | contradiction].
Qed.

(** *** The loop computes the sums *)

Lemma score_of_snoc (cs : list (Z * num)) d w d' :
  score_of (cs ++ [(d, w)]) d' =
  if decide (d' = d) then add (score_of cs d') w else score_of cs d'.
Proof.
  unfold score_of. rewrite filter_app, filter_cons, filter_nil. simpl.
  destruct (decide (d = d')) as [->|Hne].
  - destruct (decide (d' = d')); [| contradiction].
    rewrite map_app, fold_left_app. reflexivity.
  - destruct (decide (d' = d)); [congruence |].
    rewrite app_nil_r. reflexivity.
Qed.

Lemma score_of_fresh (cs : list (Z * num)) d :
  d ∉ map fst cs -> score_of cs d = of_int 0.
Proof.
  intros H. unfold score_of.
  replace (filter (fun c => fst c = d) cs) with (@nil (Z * num)); [reflexivity |].
  symmetry. induction cs as [|c cs IH]; [reflexivity |].
  rewrite filter_cons. simpl in H. apply not_elem_of_cons in H as [Hc Hcs].
  destruct (decide (fst c = d)); [congruence | apply IH, Hcs].
Qed.

Lemma scores_snoc (cs : list (Z * num)) d w :
  scores (cs ++ [(d, w)]) = accumulate1 (scores cs) (d, w).
Proof.
  unfold scores. rewrite map_app. simpl. rewrite first_occurrences_snoc.
  destruct (decide (d ∈ map fst cs)) as [Hin|Hnin].
  - rewrite (accumulate1_present _ d w (score_of cs d)).
    2:{ rewrite (acc_get_map (score_of cs)).
        destruct (decide (d ∈ first_occurrences (map fst cs))) as [_|H];
          [reflexivity |].
        exfalso. apply H, elem_of_first_occurrences, Hin. }
    rewrite (acc_set_map (score_of cs));
      [| apply NoDup_first_occurrences | apply elem_of_first_occurrences, Hin].
    apply map_ext. intros k. rewrite score_of_snoc.
    destruct (decide (k = d)) as [->|]; reflexivity.
  - rewrite (accumulate1_absent _ d w).
    2:{ rewrite (acc_get_map (score_of cs)).
        destruct (decide (d ∈ first_occurrences (map fst cs))) as [H|_];
          [| reflexivity].
        exfalso. apply Hnin, elem_of_first_occurrences, H. }
    rewrite map_app. simpl. f_equal.
    + apply map_ext_in. intros k Hk. rewrite score_of_snoc.
      destruct (decide (k = d)) as [->|]; [| reflexivity].
      exfalso. apply Hnin, elem_of_first_occurrences, list_elem_of_In, Hk.
    + rewrite score_of_snoc. destruct (decide (d = d)); [| contradiction].
      rewrite (score_of_fresh cs d Hnin). reflexivity.
Qed.

Lemma accumulate_scores (cs : list (Z * num)) :
  fold_left accumulate1 cs [] = scores cs.
Proof.
  induction cs as [|c cs IH] using rev_ind; [reflexivity |].
  rewrite fold_left_app. simpl. rewrite IH. destruct c as [d w].
  symmetry. apply scores_snoc.
Qed.

End AccumulatorFacts.

(** ** The ranker *)
Section RankingFacts.
Import BM25 BM25Spec.
Context {num : Type} {float : PyFloat num}.
Context {EvaluationResult : Type} {aggregator : Aggregator num EvaluationResult}.

Implicit Types self : RankedSearchBM25 num.

Lemma res_mapM_ext {A B} (f g : A -> Res B) l :
  (forall x, f x = g x) -> res_mapM f l = res_mapM g l.
Proof.
  intros H. induction l as [|x l IH]; simpl; [reflexivity |].
  rewrite H, IH. reflexivity.
Qed.

Lemma _compute_bm25_term_spec self idf p :
  _compute_bm25_term idf (Z.of_nat (length (positions p)))
    (get_doclength (index self) (docid p)) self =
  (score_term self idf p, self).
Proof.
  unfold _compute_bm25_term, score_term, bind, gets, lift, res_bind.
  destruct (div _ (avg_doclength (index self))); reflexivity.
Qed.

Lemma _search_scored_postings_spec self idf ps : forall acc,
  _search_scored_postings idf ps acc self =
  (res_map (fun cs => fold_left accumulate1 cs acc)
     (res_mapM (fun p => res_map (pair (docid p)) (score_term self idf p)) ps),
   self).
Proof.
  induction ps as [|p ps IH]; intros acc; [reflexivity |].
  cbn [_search_scored_postings res_mapM].
  unfold bind at 1. unfold gets at 1.
  unfold bind at 1. rewrite _compute_bm25_term_spec.
  destruct (score_term self idf p) as [w|e|]; [| reflexivity | reflexivity].
  rewrite IH. unfold res_map, res_bind.
  destruct (res_mapM _ ps); reflexivity.
Qed.

Lemma _search_scored_terms_spec self tpl : forall acc,
  _search_scored_terms (get_doc_count (index self)) tpl acc self =
  (res_map (fun css => fold_left accumulate1 (concat css) acc)
     (res_mapM (fun r => term_contributions self (postings (objects (index self) r)))
        tpl),
   self).
Proof.
  induction tpl as [|r tpl IH]; intros acc; [reflexivity |].
  cbn [_search_scored_terms res_mapM].
  unfold bind at 1. unfold get_attr at 1, gets at 1.
  unfold term_contributions at 1.
  set (ps := postings (objects (index self) r)).
  assert (Hidf :
    (match ps with
     | [] => ret (of_int 0)
     | _ :: _ =>
         let* q := lift (div (of_int (get_doc_count (index self)))
                           (of_int (Z.of_nat (length ps)))) in
         lift (log2 q)
     end) self = (idf self ps, self)).
  { destruct ps; [reflexivity |].
    unfold bind, lift, idf, res_bind. destruct (div _ _); reflexivity. }
  unfold bind at 1. rewrite Hidf.
  destruct (idf self ps) as [i|e|]; [| reflexivity | reflexivity].
  unfold bind at 1. rewrite _search_scored_postings_spec.
  cbn [res_bind].
  destruct (res_mapM (fun p => res_map (pair (docid p)) (score_term self i p)) ps)
    as [cs|e|]; [| reflexivity | reflexivity].
  cbn [res_map res_bind]. rewrite IH. unfold res_map, res_bind.
  destruct (res_mapM _ tpl) as [css|e|]; [| reflexivity | reflexivity].
  simpl. rewrite fold_left_app. reflexivity.
Qed.

Lemma _search_scored_spec self tpl :
  _search_scored tpl self =
  (res_map scores
     (res_map (@concat (Z * num))
        (res_mapM (fun r => term_contributions self (postings (objects (index self) r)))
           tpl)),
   self).
Proof.
  unfold _search_scored, bind, gets. rewrite _search_scored_terms_spec.
  unfold res_map, res_bind. destruct (res_mapM _ tpl); [| reflexivity | reflexivity].
  rewrite accumulate_scores. reflexivity.
Qed.

Lemma same_but_terms_refl self : same_but_terms self self.
Proof. repeat split. Qed.

Lemma same_but_terms_trans (s1 s2 s3 : RankedSearchBM25 num) :
  same_but_terms s1 s2 -> same_but_terms s2 s3 -> same_but_terms s1 s3.
Proof.
  intros (A1 & A2 & A3 & A4 & A5 & A6 & A7 & A8) (B1 & B2 & B3 & B4 & B5 & B6 & B7 & B8).
  repeat split; try congruence; intros r; rewrite B8; apply A8.
Qed.

Lemma set_term_same_but_terms r t self :
  same_but_terms self (snd (set_term r t self)).
Proof.
  repeat split. intros r'. simpl. destruct (decide (r' = r)); reflexivity.
Qed.

Lemma last_fetching_cons (idx : InvertedIndex num) r t ts :
  last_fetching idx r (t :: ts) =
  match last_fetching idx r ts with
  | Some t' => Some t'
  | None => if decide (get_postings idx t = Some r) then Some t else None
  end.
Proof.
  unfold last_fetching. rewrite filter_cons.
  destruct (decide (get_postings idx t = Some r)); [| destruct (last _); reflexivity].
  destruct (filter _ ts) as [|t' l']; [reflexivity |].
  rewrite last_cons. destruct (last (t' :: l')); reflexivity.
Qed.

(** The first loop of [evaluate] returns one reference for each token the
    index knows; it assigns the token to the [term] of the object and
    changes nothing else. *)
Lemma evaluate_for_spec ts : forall tpl self,
  exists self',
    evaluate_for ts tpl self =
      (Ok (tpl ++ omap (get_postings (index self)) ts)%list, self') /\
    same_but_terms self self' /\
    forall r,
      term (objects (index self') r) =
      default (term (objects (index self) r)) (last_fetching (index self) r ts).
Proof.
  induction ts as [|t ts IH]; intros tpl self.
  - exists self. simpl. rewrite app_nil_r.
    split; [reflexivity |]. split; [apply same_but_terms_refl | reflexivity].
  - cbn [evaluate_for]. unfold bind at 1, gets at 1.
    destruct (get_postings (index self) t) as [r0|] eqn:Hg.
    + unfold bind at 1.
      pose proof (set_term_same_but_terms r0 t self) as Hs.
      destruct (set_term r0 t self) as [u s1] eqn:Es.
      assert (u = Ok tt) as -> by (inversion Es; reflexivity).
      simpl in Hs.
      destruct (IH (tpl ++ [r0])%list s1) as (self' & He & Hsame & Hterm).
      exists self'. rewrite He.
      pose proof Hs as (_ & _ & _ & Hgp & _).
      split; [| split].
      * simpl. rewrite Hg, Hgp, <- app_assoc. reflexivity.
      * eapply same_but_terms_trans; eassumption.
      * intros r. rewrite Hterm, last_fetching_cons.
        replace (last_fetching (index s1) r ts)
          with (last_fetching (index self) r ts)
          by (unfold last_fetching; rewrite Hgp; reflexivity).
        destruct (last_fetching (index self) r ts); [reflexivity |].
        rewrite Hg. inversion Es; subst s1; clear Es. simpl.
        destruct (decide (r = r0)) as [->|Hne].
        -- destruct (decide (Some r0 = Some r0)); [reflexivity | contradiction].
        -- destruct (decide (Some r0 = Some r)) as [Heq|]; [| reflexivity].
           inversion Heq. congruence.
    + destruct (IH tpl self) as (self' & He & Hsame & Hterm).
      exists self'. rewrite He. split; [| split].
      * simpl. rewrite Hg. reflexivity.
      * exact Hsame.
      * intros r. rewrite Hterm, last_fetching_cons, Hg.
        destruct (last_fetching (index self) r ts); [reflexivity |].
        destruct (decide (None = Some r)); [discriminate | reflexivity].
Qed.

Lemma term_contributions_same self self' ps :
  same_but_terms self self' ->
  term_contributions self' ps = term_contributions self ps.
Proof.
  intros (_ & Hk & Hb & _ & Hn & Hdl & Hav & _).
  unfold term_contributions, idf, score_term.
  rewrite Hk, Hb, Hn, Hdl, Hav. reflexivity.
Qed.

(** The scoring reads the state and leaves it as it is. *)
Lemma _search_scored_frame self tpl : snd (_search_scored tpl self) = self.
Proof. rewrite _search_scored_spec. reflexivity. Qed.

Lemma _build_result_for_spec self tpl : forall results,
  _build_result_for tpl results self = (Ok (registered self tpl results), self).
Proof.
  induction tpl as [|r tpl IH]; intros results; [reflexivity |].
  cbn [_build_result_for]. unfold bind, get_attr, gets. rewrite IH. reflexivity.
Qed.

Lemma _build_result_spec self tpl scored :
  _build_result tpl scored self =
  (Ok (update_ranked_results (ranked_score scored)
         (registered self tpl EvaluationResult_new)), self).
Proof.
  unfold _build_result, bind. rewrite _build_result_for_spec. reflexivity.
Qed.

(** The scores of an evaluation, in terms of the state before it. *)
Lemma evaluate_scores_spec self :
  exists self',
    evaluate_scores self = (res_map scores (query_contributions self), self') /\
    same_but_terms self self' /\
    forall r,
      term (objects (index self') r) =
      default (term (objects (index self) r))
        (last_fetching (index self) r (query self)).
Proof.
  destruct (evaluate_for_spec (query self) [] self) as (self' & He & Hsame & Hterm).
  exists self'. split; [| split; assumption].
  unfold evaluate_scores, bind at 1, gets at 1.
  unfold bind. rewrite He, _search_scored_spec. simpl.
  unfold query_contributions, fetched. f_equal. f_equal. f_equal.
  apply res_mapM_ext. intros r.
  destruct Hsame as (H1 & H2 & H3 & H4 & H5 & H6 & H7 & H8).
  rewrite H8. apply term_contributions_same. repeat split; assumption.
Qed.

Lemma evaluate_bm25_spec self :
  exists self',
    evaluate self =
      (res_map (fun cs =>
                  update_ranked_results (ranked_score (scores cs))
                    (registered self' (fetched self) EvaluationResult_new))
         (query_contributions self), self') /\
    snd (evaluate_scores self) = self'.
Proof.
  destruct (evaluate_for_spec (query self) [] self) as (self' & He & Hsame & Hterm).
  destruct (evaluate_scores_spec self) as (self'' & Hs & _).
  assert (self'' = self') as ->.
  { pose proof (f_equal snd Hs) as H. simpl in H. rewrite <- H.
    unfold evaluate_scores, bind at 1, gets at 1. unfold bind. rewrite He.
    apply _search_scored_frame. }
  exists self'. split; [| rewrite Hs; reflexivity].
  pose proof Hs as Hs'.
  unfold evaluate_scores, bind at 1, gets at 1 in Hs'.
  unfold bind in Hs'. rewrite He in Hs'.
  unfold evaluate, bind at 1, gets at 1.
  unfold bind at 1. rewrite He.
  unfold bind at 1.
  destruct (_search_scored ([] ++ omap (get_postings (index self)) (query self)) self')
    as [rs s3] eqn:Es.
  inversion Hs'; subst rs s3; clear Hs'.
  destruct (query_contributions self) as [cs|e|]; simpl; [| reflexivity | reflexivity].
  rewrite _build_result_spec. reflexivity.
Qed.

(** *** The sort *)

Lemma place_Permutation x (l : list (Z * num)) : Permutation (place x l) (x :: l).
Proof.
  induction l as [|y l IH]; simpl; [reflexivity |].
  destruct (ltb (snd x) (snd y)); [| reflexivity].
  rewrite IH. apply perm_swap.
Qed.

Lemma sorted_by_score_reverse_Permutation (items : list (Z * num)) :
  Permutation (sorted_by_score_reverse items) items.
Proof.
  induction items as [|x items IH]; simpl; [reflexivity |].
  rewrite place_Permutation, IH. reflexivity.
Qed.

Section Order.
(** [<] on floats that are not NaN is a strict weak order. *)
Hypothesis ltb_asym : forall x y : num, ltb x y = true -> ltb y x = false.
Hypothesis ltb_negtrans :
  forall x y z : num, ltb x y = false -> ltb y z = false -> ltb x z = false.

Lemma ltb_irrefl (x : num) : ltb x x = false.
Proof.
  destruct (ltb x x) eqn:E; [| reflexivity].
  pose proof (ltb_asym x x E) as H. congruence.
Qed.

Lemma place_descending x l : descending l -> descending (place x l).
Proof.
  unfold descending.
  induction l as [|y l IH]; simpl; intros Hl.
  - repeat constructor.
  - apply StronglySorted_inv in Hl as [Hl Hy].
    destruct (ltb (snd x) (snd y)) eqn:E.
    + constructor; [apply IH, Hl |].
      rewrite place_Permutation. constructor; [apply ltb_asym, E | exact Hy].
    + constructor; [constructor; assumption |].
      constructor; [exact E |].
      eapply Forall_impl; [exact Hy |].
      intros z Hz. simpl in Hz. eapply ltb_negtrans; eassumption.
Qed.

Lemma sorted_by_score_reverse_descending items :
  descending (sorted_by_score_reverse items).
Proof.
  induction items as [|x items IH]; simpl; [constructor |].
  apply place_descending, IH.
Qed.

Lemma descending_lookup l : descending l ->
  forall i j x y, (i < j)%nat -> l !! i = Some x -> l !! j = Some y ->
    ltb (snd x) (snd y) = false.
Proof.
  unfold descending. induction 1 as [|a l Hl IH Ha]; intros i j x y Hij Hi Hj.
  - rewrite lookup_nil in Hi. discriminate.
  - destruct j as [|j]; [lia |]. simpl in Hj.
    destruct i as [|i]; simpl in Hi.
    + inversion Hi; subst a.
      rewrite Forall_forall in Ha. apply Ha.
      eapply list_elem_of_lookup_2, Hj.
    + apply (IH i j); [lia | assumption | assumption].
Qed.

Lemma greater_score_first l : descending l ->
  forall i j x y, l !! i = Some x -> l !! j = Some y ->
    ltb (snd y) (snd x) = true -> (i < j)%nat.
Proof.
  intros Hl i j x y Hi Hj Hlt.
  destruct (Nat.lt_trichotomy i j) as [H|[H|H]]; [exact H | |].
  - subst j. rewrite Hi in Hj. inversion Hj; subst y.
    rewrite ltb_irrefl in Hlt. discriminate.
  - rewrite (descending_lookup l Hl j i y x H Hj Hi) in Hlt. discriminate.
Qed.
End Order.

Section OrderOn.
(** The same for a scored set on whose entries [<] is a strict weak order,
    whatever it is elsewhere: among Python's floats NaN is less than
    nothing and nothing is less than NaN, so that [<] is no strict weak
    order on a set of scores one of which is NaN. *)
Variable comparable : Z * num -> Prop.
Hypothesis ltb_asym_on :
  forall x y : Z * num, comparable x -> comparable y ->
    ltb (snd x) (snd y) = true -> ltb (snd y) (snd x) = false.
Hypothesis ltb_negtrans_on :
  forall x y z : Z * num, comparable x -> comparable y -> comparable z ->
    ltb (snd x) (snd y) = false -> ltb (snd y) (snd z) = false ->
    ltb (snd x) (snd z) = false.

Lemma place_descending_on x l :
  comparable x -> Forall comparable l ->
  descending l -> descending (place x l).
Proof.
  unfold descending. intros Hx.
  induction l as [|y l IH]; simpl; intros Hc Hl.
  - repeat constructor.
  - apply Forall_cons in Hc as [Hy Hc].
    apply StronglySorted_inv in Hl as [Hl Hyl].
    destruct (ltb (snd x) (snd y)) eqn:E.
    + constructor; [apply IH; assumption |].
      rewrite place_Permutation.
      constructor; [apply ltb_asym_on; assumption | exact Hyl].
    + constructor; [constructor; assumption |].
      constructor; [exact E |].
      rewrite Forall_forall in Hyl, Hc. apply Forall_forall. intros z Hz.
      apply (ltb_negtrans_on x y z); auto.
Qed.

Lemma sorted_by_score_reverse_descending_on items :
  Forall comparable items -> descending (sorted_by_score_reverse items).
Proof.
  induction items as [|x items IH]; simpl; intros Hc; [constructor |].
  apply Forall_cons in Hc as [Hx Hc].
  apply place_descending_on; [exact Hx | | apply IH, Hc].
  rewrite sorted_by_score_reverse_Permutation. exact Hc.
Qed.

Lemma greater_score_first_on l : Forall comparable l -> descending l ->
  forall i j x y, l !! i = Some x -> l !! j = Some y ->
    ltb (snd y) (snd x) = true -> (i < j)%nat.
Proof.
  intros Hc Hl i j x y Hi Hj Hlt.
  destruct (Nat.lt_trichotomy i j) as [H|[H|H]]; [exact H | |].
  - subst j. rewrite Hi in Hj. inversion Hj; subst y.
    assert (Hx : comparable x)
      by (rewrite Forall_forall in Hc; eapply Hc, list_elem_of_lookup_2, Hi).
    rewrite (ltb_asym_on x x Hx Hx Hlt) in Hlt. discriminate.
  - rewrite (descending_lookup l Hl j i y x H Hj Hi) in Hlt. discriminate.
Qed.
End OrderOn.

End RankingFacts.

(** ** The order of the sample floats *)
Section SampleRankingFacts.
Import BM25.

Lemma Q_ltb_asym (x y : QArith_base.Q) : ltb x y = true -> ltb y x = false.
Proof.
  simpl. intros H. apply negb_true_iff in H. apply negb_false_iff.
  apply QArith_base.Qle_bool_iff. apply QArith_base.Qlt_le_weak, QArith_base.Qnot_le_lt.
  intros Hle. apply QArith_base.Qle_bool_iff in Hle. congruence.
Qed.

Lemma Q_ltb_negtrans (x y z : QArith_base.Q) :
  ltb x y = false -> ltb y z = false -> ltb x z = false.
Proof.
  simpl. intros H1 H2.
  apply negb_false_iff, QArith_base.Qle_bool_iff in H1.
  apply negb_false_iff, QArith_base.Qle_bool_iff in H2.
  apply negb_false_iff, QArith_base.Qle_bool_iff. eapply QArith_base.Qle_trans; eassumption.
Qed.

(** The scores of the query [apple] over the sample index: [N / df = 2],
    [idf = 1], and with [dl = davg] the weights are [2.2 * tf / (1.2 + tf)]. *)
Example scores_apple :
  fst (evaluate_scores SampleRanking.ranker_apple) =
  Ok [(1, QArith_base.Qmake 17600 12800); (2, QArith_base.Qmake 8800 8800)].
Proof. vm_compute. reflexivity. Qed.

End SampleRankingFacts.

(** * The claims *)

(** ** Claims about [expression_eval.py] *)
Section BooleanClaims.
Import Boolean.

(** C10.  [EvaluationResult.get_postings] returns [None] for every term and
    every state of the aggregator, whether or not the term is a key of
    [postings_map]. *)
Theorem get_postings_returns_None :
  forall (term : string) (self : EvaluationResult.t),
    EvaluationResult.get_postings term self = None.
Proof. intros term self. reflexivity. Qed.

(** C5, as amended.  [add_postings term postings] appends [term] to the
    term list of a docid once for every posting of [postings] with that
    docid, whether or not [term] is already in the list; the lists of the
    other docids stay as they are. *)
Theorem add_postings_appends_per_posting :
  forall (term : string) (postings : list Posting) (self : EvaluationResult.t) (d : Z),
    EvaluationResult.get_terms d (EvaluationResult.add_postings term postings self) =
    (EvaluationResult.get_terms d self ++ repeat term (occurrences d postings))%list.
Proof. intros. apply get_terms_add_postings. Qed.

(** C5, as stated, fails: two calls for the same term leave the term twice
    in the list of a document. *)
Lemma add_postings_twice_duplicates :
  ~ NoDup (EvaluationResult.get_terms 1
             (EvaluationResult.add_postings "x" [mkPosting 1 [0]]
                (EvaluationResult.add_postings "x" [mkPosting 1 [0]]
                   EvaluationResult.new))).
Proof.
  rewrite !get_terms_add_postings. simpl.
  intros H. inversion H as [|? ? Hnotin _]; subst.
  apply Hnotin. left.
Qed.

(** C1.  An AND node whose children both return: with one child absent
    ([None], term not indexed) the result is the other child's postings,
    unchanged; with both absent it is absent; [intersect] is applied only
    to two postings lists.  And a query [x AND y] with [x] not indexed and
    [y] in documents 5 and 6 evaluates to the postings of [y]. *)
Theorem and_absent_child_is_identity :
  (forall (l r : ParseTree) (op : Token) (self s1 s2 : Evaluator)
          (lp rp : option (list Posting)),
      type op = AND ->
      _visit l self = (Ok lp, s1) ->
      _visit r s1 = (Ok rp, s2) ->
      _visit (BinOp l op r) self =
      (Ok match lp, rp with
          | None, None => None
          | None, Some right_postings => Some right_postings
          | Some left_postings, None => Some left_postings
          | Some left_postings, Some right_postings =>
              Some (search.intersect left_postings right_postings)
          end, s2)) /\
  (forall (word_tokenize : string -> list string) (q x y : string)
          (index : InvertedIndex.t) (ps : list Posting),
      word_tokenize q = [x; "AND"; y] ->
      type (lex1 x) = TERM -> type (lex1 y) = TERM ->
      InvertedIndex.get_postings index x = None ->
      InvertedIndex.get_postings index y = Some ps ->
      docids ps = [5; 6] ->
      exists res,
        boolean_query word_tokenize q index = Ok res /\
        EvaluationResult.query_result res = Some ps /\
        docids <$> EvaluationResult.query_result res = Some [5; 6]).
Proof.
  split.
  - intros l r op self s1 s2 lp rp Hop Hl Hr.
    rewrite (_visit_AND _ _ _ _ Hop).
    rewrite (bind_Ok _ _ _ _ _ Hl), (bind_Ok _ _ _ _ _ Hr).
    destruct lp, rp; reflexivity.
  - intros tok q x y index ps Hq Hx Hy Hax Hay Hd.
    destruct (parse_x_AND_y tok q x y Hq Hx Hy) as (parser & parser' & Hi & Hp).
    unfold boolean_query. rewrite Hi.
    erewrite evaluate_spec; [| exact Hp |].
    2:{ rewrite _visit_AND by reflexivity.
        unfold bind. rewrite !_visit_Term. cbn [_index value].
        rewrite Hax, Hay. reflexivity. }
    eexists. split; [reflexivity |]. simpl. rewrite Hd. split; reflexivity.
Qed.

Lemma and_absent_child_is_identity_witness :
  _visit (BinOp (Term (mkToken "x" TERM)) (mkToken "AND" AND) (Term (mkToken "y" TERM)))
    (Sample.evaluator "x AND y" Sample.index_y) =
  (Ok (Some [mkPosting 5 [0]; mkPosting 6 [2; 7]]),
   snd (_visit (Term (mkToken "y" TERM))
          (snd (_visit (Term (mkToken "x" TERM))
                  (Sample.evaluator "x AND y" Sample.index_y))))) /\
  exists res,
    boolean_query split_spaces "x AND y" Sample.index_y = Ok res /\
    EvaluationResult.query_result res = Some [mkPosting 5 [0]; mkPosting 6 [2; 7]] /\
    docids <$> EvaluationResult.query_result res = Some [5; 6].
Proof.
  split.
  - apply (proj1 and_absent_child_is_identity
             (Term (mkToken "x" TERM)) (Term (mkToken "y" TERM)) (mkToken "AND" AND)
             (Sample.evaluator "x AND y" Sample.index_y)
             (snd (_visit (Term (mkToken "x" TERM))
                     (Sample.evaluator "x AND y" Sample.index_y)))
             (snd (_visit (Term (mkToken "y" TERM))
                     (snd (_visit (Term (mkToken "x" TERM))
                             (Sample.evaluator "x AND y" Sample.index_y)))))
             None (Some [mkPosting 5 [0]; mkPosting 6 [2; 7]]));
      reflexivity.
  - apply (proj2 and_absent_child_is_identity split_spaces "x AND y" "x" "y");
      reflexivity.
Defined.

(** C8.  An OR node whose children both return never fails: its result
    is [union] of the two results, in which an absent child ([None]) counts
    as the empty postings list, so that with one child absent the result
    is the other child's postings. *)
Theorem or_absent_child_is_empty :
  forall (l r : ParseTree) (op : Token) (self s1 s2 : Evaluator)
         (lp rp : option (list Posting)),
    type op = OR ->
    _visit l self = (Ok lp, s1) ->
    _visit r s1 = (Ok rp, s2) ->
    _visit (BinOp l op r) self = (Ok (Some (search.union lp rp)), s2) /\
    search.union lp rp = search.union (Some (default [] lp)) (Some (default [] rp)) /\
    (lp = None -> search.union lp rp = default [] rp) /\
    (rp = None -> search.union lp rp = default [] lp).
Proof.
  intros l r op self s1 s2 lp rp Hop Hl Hr. repeat split.
  - rewrite (_visit_OR _ _ _ _ Hop).
    rewrite (bind_Ok _ _ _ _ _ Hl), (bind_Ok _ _ _ _ _ Hr). reflexivity.
  - intros ->. apply union_absent_l.
  - intros ->. apply union_absent_r.
Qed.

Lemma or_absent_child_is_empty_witness :
  _visit (BinOp (Term (mkToken "x" TERM)) (mkToken "OR" OR) (Term (mkToken "y" TERM)))
    (Sample.evaluator "x OR y" Sample.index_y) =
  (Ok (Some (search.union None (Some [mkPosting 5 [0]; mkPosting 6 [2; 7]]))),
   snd (_visit (Term (mkToken "y" TERM))
          (snd (_visit (Term (mkToken "x" TERM))
                  (Sample.evaluator "x OR y" Sample.index_y))))).
Proof.
  apply (or_absent_child_is_empty
           (Term (mkToken "x" TERM)) (Term (mkToken "y" TERM)) (mkToken "OR" OR)
           (Sample.evaluator "x OR y" Sample.index_y)
           (snd (_visit (Term (mkToken "x" TERM))
                   (Sample.evaluator "x OR y" Sample.index_y)))
           (snd (_visit (Term (mkToken "y" TERM))
                   (snd (_visit (Term (mkToken "x" TERM))
                           (Sample.evaluator "x OR y" Sample.index_y)))))
           None (Some [mkPosting 5 [0]; mkPosting 6 [2; 7]]));
    reflexivity.
Defined.



(** C3, on the code.  For the query [a AND], whose right operand is
    missing, [_term] is entered with the end marker as current token; none
    of its branches assigns [node], and the parse, and with it the
    evaluation, raises [UnboundLocalError], not
    [ExpressionParserException]. *)
Theorem trailing_operator_raises_unbound_local :
  forall (word_tokenize : string -> list string) (q a : string)
         (index : InvertedIndex.t),
    word_tokenize q = [a; "AND"] ->
    type (lex1 a) = TERM ->
    parse_expression word_tokenize q = Raise (UnboundLocalError "node") /\
    boolean_query word_tokenize q index = Raise (UnboundLocalError "node").
Proof.
  intros tok q a index Hq Ha.
  destruct (parse_a_AND tok q a Hq Ha) as (parser & parser' & Hi & Hp).
  unfold parse_expression, boolean_query. rewrite Hi, Hp. split; [reflexivity |].
  apply (evaluate_parse_raises index parser parser' _ Hp).
Qed.

Lemma trailing_operator_raises_unbound_local_witness :
  parse_expression split_spaces "a AND" = Raise (UnboundLocalError "node") /\
  boolean_query split_spaces "a AND" Sample.index_abc = Raise (UnboundLocalError "node").
Proof.
  apply (trailing_operator_raises_unbound_local split_spaces "a AND" "a");
    reflexivity.
Defined.

(** C6.  After an evaluation that returns, the term list of every docid
    holds the terms of the leaves of the parsed tree, in the order of the
    visit, whose postings contain the docid (one copy per posting): a term
    is in the list exactly when it was visited and its postings contain
    the docid, whether or not the docid is in the final postings. *)
Theorem term_map_records_visited_terms :
  forall (self self' : Evaluator) (res : EvaluationResult.t)
         (tree : ParseTree) (parser' : Parser),
    parse (_parser self) = (Ok tree, parser') ->
    evaluate self = (Ok res, self') ->
    forall d : Z,
      EvaluationResult.get_terms d res =
        flat_map (recorded (_index self) d) (tree_terms tree) /\
      forall t : string,
        t ∈ EvaluationResult.get_terms d res <->
        t ∈ tree_terms tree /\
        d ∈ docids (default [] (InvertedIndex.get_postings (_index self) t)).
Proof.
  intros self self' res tree parser' Hp He d.
  apply evaluate_Ok_inv in He as (tree' & p' & r & s2 & Hp' & Hv & ->).
  rewrite Hp in Hp'. inversion Hp'; subst tree' p'; clear Hp'.
  assert (Heq : EvaluationResult.get_terms d
                  (EvaluationResult.update_results (default [] r) (eval_result s2)) =
                flat_map (recorded (_index self) d) (tree_terms tree)).
  { rewrite (get_terms_default d (EvaluationResult.update_results _ _)).
    cbn [EvaluationResult.term_map EvaluationResult.update_results].
    rewrite <- get_terms_default.
    rewrite (_visit_term_map _ _ _ _ Hv d). reflexivity. }
  split; [exact Heq |].
  intros t. rewrite Heq. apply elem_of_recorded.
Qed.

Lemma term_map_records_visited_terms_witness :
  exists res,
    boolean_query split_spaces "x AND y" Sample.index_xy = Ok res /\
    EvaluationResult.get_terms 3 res = ["x"; "y"] /\
    EvaluationResult.get_terms 1 res = ["x"] /\
    EvaluationResult.get_terms 5 res = ["y"] /\
    docids <$> EvaluationResult.query_result res = Some [3].
Proof.
  pose (self := Sample.evaluator "x AND y" Sample.index_xy).
  pose proof (term_map_records_visited_terms self (snd (evaluate self))
                (eval_result (snd (evaluate self)))
                (BinOp (Term (mkToken "x" TERM)) (mkToken "AND" AND)
                   (Term (mkToken "y" TERM)))
                (snd (parse (_parser self))) eq_refl eq_refl) as H.
  exists (eval_result (snd (evaluate self))).
  split; [reflexivity |].
  rewrite (proj1 (H 3)), (proj1 (H 1)), (proj1 (H 5)).
  repeat split; reflexivity.
Defined.

End BooleanClaims.

(** ** Claims about [rank_bm25_eval.py], and about the index *)
Section RankingClaims.
Import BM25 BM25Spec.




(** C4.  The scores that an evaluation computes are the sums of the
    contributions of the query: for every occurrence of a query term that
    the index knows (duplicates included, one after the other) and every
    posting of the term, [score_term] with [idf = log2(N / df)], added to
    the score of the posting's document starting from 0; a term without
    postings has [idf = 0] and contributes nothing.  An exception of the
    arithmetic is the outcome of both sides.  [evaluate] builds its result
    from these scores. *)
Theorem bm25_scores_sum_contributions :
  forall (num : Type) (float : PyFloat num)
         (EvaluationResult : Type) (aggregator : Aggregator num EvaluationResult)
         (self : RankedSearchBM25 num),
    fst (evaluate_scores self) = res_map scores (query_contributions self) /\
    fst (evaluate self) =
      res_map (fun cs =>
                 update_ranked_results (ranked_score (scores cs))
                   (registered (snd (evaluate_scores self)) (fetched self)
                      EvaluationResult_new))
        (query_contributions self) /\
    idf self [] = Ok (of_int 0) /\
    term_contributions self [] = Ok [].
Proof.
  intros num float ER agg self.
  destruct (evaluate_scores_spec self) as (s1 & Hs & _).
  destruct (evaluate_bm25_spec self) as (s2 & He & Hsnd).
  split; [rewrite Hs; reflexivity |].
  split; [rewrite He, Hsnd; reflexivity |].
  split; reflexivity.
Qed.

(** C9, as amended.  The boolean evaluation leaves the index as it is.
    The BM25 evaluation leaves the query, the parameters, the answers of
    the index and every postings list as they are, and assigns to the
    [term] of every object that the index answers for a query token the
    last token of the query that fetched it; the [term] of the other
    objects stays. *)
Theorem index_unchanged_except_term :
  (forall self : Boolean.Evaluator,
      Boolean._index (snd (Boolean.evaluate self)) = Boolean._index self) /\
  (forall (num : Type) (float : PyFloat num)
          (EvaluationResult : Type) (aggregator : Aggregator num EvaluationResult)
          (self : RankedSearchBM25 num),
      same_but_terms self (snd (evaluate self)) /\
      forall r : ref,
        term (objects (index (snd (evaluate self))) r) =
        default (term (objects (index self) r))
          (last_fetching (index self) r (query self))).
Proof.
  split; [apply evaluate_index_frame |].
  intros num float ER agg self.
  destruct (evaluate_scores_spec self) as (s1 & Hs & Hsame & Hterm).
  destruct (evaluate_bm25_spec self) as (s2 & He & Hsnd).
  rewrite Hs in Hsnd. simpl in Hsnd. subst s2.
  rewrite He. simpl. split; assumption.
Qed.

(** C9, as stated, fails: the BM25 evaluation of the query [apple] changes
    the object that the index answers for it. *)
Lemma bm25_evaluate_changes_term :
  objects (index (snd (evaluate SampleRanking.ranker_apple))) O <>
  objects (index SampleRanking.ranker_apple) O.
Proof.
  intros H. apply (f_equal term) in H. vm_compute in H. discriminate.
Qed.

End RankingClaims.

(** * Further properties *)

(** ** The parser: fuel, exceptions, trailing tokens *)
Section ParserFuel.
Import Boolean.

Lemma refines_refl {S A} (m : M S A) : refines m m.
Proof. intros s r s' H _. exact H. Qed.

Lemma refines_out_of_fuel {S A} (m : M S A) : refines out_of_fuel m.
Proof. intros s r s' H Hr. inversion H; subst. contradiction. Qed.

Lemma refines_bind {S A B} (m m' : M S A) (k k' : A -> M S B) :
  refines m m' -> (forall a, refines (k a) (k' a)) ->
  refines (bind m k) (bind m' k').
Proof.
  intros Hm Hk s r s' H Hr. unfold bind in *.
  destruct (m s) as [[a|e|] s1] eqn:E.
  - rewrite (Hm s (Ok a) s1 E) by discriminate. apply (Hk a); assumption.
  - rewrite (Hm s (Raise e) s1 E) by discriminate. exact H.
  - inversion H; subst. contradiction.
Qed.

(** More fuel changes nothing for a run that did not exhaust its fuel. *)
Lemma parser_fuel_mono fuel : forall fuel', (fuel <= fuel')%nat ->
  refines (_term fuel) (_term fuel') /\
  refines (_conjunction fuel) (_conjunction fuel') /\
  (forall node, refines (_conjunction_while fuel node) (_conjunction_while fuel' node)) /\
  refines (_expression fuel) (_expression fuel') /\
  (forall node, refines (_expression_while fuel node) (_expression_while fuel' node)).
Proof.
  induction fuel as [|fuel IH]; intros fuel' Hle.
  { repeat split; intros; apply refines_out_of_fuel. }
  destruct fuel' as [|fuel']; [lia |].
  assert (Hle' : (fuel <= fuel')%nat) by lia.
  destruct (IH fuel' Hle') as (Ht & Hc & Hcw & He & Hew).
  split; [| split; [| split; [| split]]].
  - cbn [_term]. apply refines_bind; [apply refines_refl |].
    intros tok. destruct (type tok); try apply refines_refl.
    + apply refines_bind; [apply refines_refl |]. intros _.
      apply refines_bind; [exact Ht |]. intros child. apply refines_refl.
    + apply refines_bind; [apply refines_refl |]. intros _.
      apply refines_bind; [exact He |]. intros node. apply refines_refl.
  - cbn [_conjunction]. apply refines_bind; [exact Ht |]. intros node. apply Hcw.
  - intros node. cbn [_conjunction_while].
    apply refines_bind; [apply refines_refl |]. intros tok.
    destruct (decide (type tok = AND)); [| apply refines_refl].
    apply refines_bind; [apply refines_refl |]. intros _.
    apply refines_bind; [exact Ht |]. intros right. apply Hcw.
  - cbn [_expression]. apply refines_bind; [exact Hc |]. intros node. apply Hew.
  - intros node. cbn [_expression_while].
    apply refines_bind; [apply refines_refl |]. intros tok.
    destruct (decide (type tok = OR)); [| apply refines_refl].
    apply refines_bind; [apply refines_refl |]. intros _.
    apply refines_bind; [exact Hc |]. intros right. apply Hew.
Qed.

(** With more fuel than [parse] takes, [_expression] has the outcome of
    [parse]. *)
Lemma parse_more_fuel (p : Parser) fuel :
  (parse_fuel p <= fuel)%nat -> _expression fuel p = parse p.
Proof.
  intros Hle.
  destruct (parse p) as [r p'] eqn:E.
  pose proof (parse_enough_fuel p) as Hr. rewrite E in Hr. simpl in Hr.
  apply (proj1 (proj2 (proj2 (proj2 (parser_fuel_mono _ fuel Hle)))) p r p');
    assumption.
Qed.

(** X1.  The recursive descent terminates, and the bound on its recursion
    cannot be observed: [parse] does not run out of fuel, and with any
    larger amount of fuel [_expression] has the outcome of [parse]. *)
Theorem parse_fuel_independent :
  forall (p : Parser),
    fst (parse p) <> OutOfFuel /\
    forall fuel, (parse_fuel p <= fuel)%nat -> _expression fuel p = parse p.
Proof.
  intros p. split; [apply parse_enough_fuel | apply parse_more_fuel].
Qed.

(** An outcome of [_expression] with some fuel, other than its exhaustion,
    is the outcome of [parse]. *)
Lemma parse_any_fuel fuel (p : Parser) r p' :
  _expression fuel p = (r, p') -> r <> OutOfFuel -> parse p = (r, p').
Proof.
  intros H Hr.
  destruct (Nat.le_ge_cases fuel (parse_fuel p)) as [Hle|Hge].
  - apply (proj1 (proj2 (proj2 (proj2 (parser_fuel_mono _ _ Hle)))) p r p');
      assumption.
  - rewrite <- (parse_more_fuel p fuel Hge). exact H.
Qed.

Lemma parse_fuel_independent_witness :
  _expression 100
    {| _tokens := []; _current_token := mkToken "a" TERM;
       _tokens_stream := [mkToken "AND" AND; mkToken "##EOF##" EOF] |} =
  (Raise (UnboundLocalError "node"),
   {| _tokens := []; _current_token := mkToken "##EOF##" EOF; _tokens_stream := [] |}).
Proof.
  rewrite (proj2 (parse_fuel_independent
                    {| _tokens := []; _current_token := mkToken "a" TERM;
                       _tokens_stream := [mkToken "AND" AND; mkToken "##EOF##" EOF] |})
             100%nat).
  - reflexivity.
  - unfold parse_fuel, tokens_left. simpl. lia.
Defined.

End ParserFuel.

(** ** The parser: its exceptions *)
Section ParserExceptions.
Import Boolean.

Lemma outcome_bind {S A B} (m : M S A) (k : A -> M S B) s Q E :
  outcome m s (fun a s' => outcome (k a) s' Q E) E -> outcome (bind m k) s Q E.
Proof. unfold outcome, bind. destruct (m s) as [[a|e|] s']; auto. Qed.

Lemma outcome_mono {S A} (m : M S A) s (Q Q' : A -> S -> Prop) (E E' : exn -> Prop) :
  outcome m s Q E ->
  (forall a s', Q a s' -> Q' a s') -> (forall e, E e -> E' e) ->
  outcome m s Q' E'.
Proof. unfold outcome. destruct (m s) as [[a|e|] s']; auto. Qed.

(** An ingest of a kind other than the end marker, in a state whose tokens
    end with an end marker: the iterator is not exhausted. *)
Lemma outcome_ingest ty (p : Parser) :
  ty <> EOF -> ends_with_EOF p ->
  outcome (_ingest ty) p
    (fun _ p' => ends_with_EOF p' /\ type (_current_token p) = ty)
    (fun e =>
       type (_current_token p) <> ty /\
       e = ExpressionParserException (syntax_message ty (type (_current_token p)))).
Proof.
  intros Hty (body & e & Hrem & He).
  unfold outcome, _ingest, bind, gets, advance, raise.
  destruct (decide (type (_current_token p) = ty)) as [Heq|Hne]; [| split; auto].
  unfold remaining in Hrem.
  destruct (_tokens_stream p) as [|t rest] eqn:Es.
  - exfalso. destruct body as [|b [|b' body]]; simpl in Hrem; inversion Hrem; subst.
    congruence.
  - split; [| exact Heq].
    destruct body as [|b body]; simpl in Hrem; inversion Hrem; subst.
    exists body, e. split; [unfold remaining; simpl; congruence | exact He].
Qed.

Ltac guarded_ingest ty Hty :=
  apply outcome_bind;
  eapply outcome_mono;
    [apply (outcome_ingest ty); [discriminate | assumption]
    | cbv beta
    | cbv beta; intros ? [Hne _]; exfalso; apply Hne; exact Hty].

Lemma parser_outcome fuel : forall p : Parser,
  ends_with_EOF p ->
  outcome (_term fuel) p (fun _ p' => ends_with_EOF p') parser_exception /\
  outcome (_conjunction fuel) p (fun _ p' => ends_with_EOF p') parser_exception /\
  (forall node,
      outcome (_conjunction_while fuel node) p
        (fun _ p' => ends_with_EOF p') parser_exception) /\
  outcome (_expression fuel) p (fun _ p' => ends_with_EOF p') parser_exception /\
  (forall node,
      outcome (_expression_while fuel node) p
        (fun _ p' => ends_with_EOF p') parser_exception).
Proof.
  induction fuel as [|fuel IH]; intros p Hp.
  { repeat split; intros; exact I. }
  split; [| split; [| split; [| split]]].
  - cbn [_term]. apply outcome_bind. unfold outcome at 1, gets.
    destruct (type (_current_token p)) eqn:Hty;
      try (left; reflexivity).
    + guarded_ingest TERM Hty. intros _ p1 [H1 _]. exact H1.
    + guarded_ingest NOT Hty. intros _ p1 [H1 _].
      apply outcome_bind.
      eapply outcome_mono; [apply (proj1 (IH p1 H1)) | cbv beta | auto].
      intros child p2 H2. exact H2.
    + guarded_ingest LPAREN Hty. intros _ p1 [H1 _].
      apply outcome_bind.
      eapply outcome_mono;
        [apply (proj1 (proj2 (proj2 (proj2 (IH p1 H1))))) | cbv beta | auto].
      intros node p2 H2.
      apply outcome_bind.
      eapply outcome_mono;
        [apply (outcome_ingest RPAREN); [discriminate | exact H2] | cbv beta | cbv beta].
      * intros _ p3 [H3 _]. exact H3.
      * intros e [Hne ->]. right. exists (type (_current_token p2)). split; auto.
  - cbn [_conjunction]. apply outcome_bind.
    eapply outcome_mono; [apply (proj1 (IH p Hp)) | cbv beta | auto].
    intros node p1 H1. apply (proj1 (proj2 (proj2 (IH p1 H1)))).
  - intros node. cbn [_conjunction_while]. apply outcome_bind. unfold outcome at 1, gets.
    destruct (decide (type (_current_token p) = AND)) as [Hty|]; [| exact Hp].
    guarded_ingest AND Hty. intros _ p1 [H1 _].
    apply outcome_bind.
    eapply outcome_mono; [apply (proj1 (IH p1 H1)) | cbv beta | auto].
    intros right p2 H2. apply (proj1 (proj2 (proj2 (IH p2 H2)))).
  - cbn [_expression]. apply outcome_bind.
    eapply outcome_mono; [apply (proj1 (proj2 (IH p Hp))) | cbv beta | auto].
    intros node p1 H1. apply (proj2 (proj2 (proj2 (proj2 (IH p1 H1))))).
  - intros node. cbn [_expression_while]. apply outcome_bind. unfold outcome at 1, gets.
    destruct (decide (type (_current_token p) = OR)) as [Hty|]; [| exact Hp].
    guarded_ingest OR Hty. intros _ p1 [H1 _].
    apply outcome_bind.
    eapply outcome_mono; [apply (proj1 (proj2 (IH p1 H1))) | cbv beta | auto].
    intros right p2 H2. apply (proj2 (proj2 (proj2 (proj2 (IH p2 H2))))).
Qed.

Lemma lexer_app ts1 ts2 : lexer (ts1 ++ ts2) = (lexer ts1 ++ lexer ts2)%list.
Proof. unfold lexer. apply map_app. Qed.

Lemma Parser_init_ends_with_EOF word_tokenize q :
  exists p, Parser_init word_tokenize q = Ok p /\ ends_with_EOF p /\
            remaining p = lexer (word_tokenize q ++ [TokenType_value EOF]).
Proof.
  unfold Parser_init.
  destruct (lexer (word_tokenize q ++ [TokenType_value EOF])) as [|t rest] eqn:El.
  - rewrite lexer_app in El. destruct (lexer (word_tokenize q)); discriminate.
  - eexists. split; [reflexivity |]. split; [| reflexivity].
    exists (lexer (word_tokenize q)), (lex1 (TokenType_value EOF)).
    unfold remaining. simpl. rewrite <- El, lexer_app. split; reflexivity.
Qed.

(** X2.  The parser of a query, whatever the tokenizer and the query, where
    its descent stays under the recursion limit, raises nothing but the
    unbound local of [_term] and the syntax error of a parenthesis that is
    not closed; in particular the token iterator is never exhausted
    ([StopIteration]). *)
Theorem parser_raises_only :
  forall (recursion_limit frames_in_use : nat)
         (word_tokenize : string -> list string) (q : string),
    fits recursion_limit frames_in_use (query_frames (word_tokenize q)) ->
    match parse_expression word_tokenize q with
    | Ok _ => True
    | Raise e =>
        e = UnboundLocalError "node" \/
        exists received,
          received <> RPAREN /\
          e = ExpressionParserException (syntax_message RPAREN received)
    | OutOfFuel => False
    end.
Proof.
  intros limit frames tok q _.
  destruct (Parser_init_ends_with_EOF tok q) as (p & Hi & Hp & _).
  unfold parse_expression. rewrite Hi.
  pose proof (proj1 (proj2 (proj2 (proj2 (parser_outcome (parse_fuel p) p Hp))))) as H.
  pose proof (parse_enough_fuel p) as Hf.
  unfold outcome in H. unfold parse in *.
  destruct (_expression (parse_fuel p) p) as [[t|e|] p']; simpl in *;
    [exact I | exact H | contradiction].
Qed.

Lemma parser_raises_only_witness :
  fits 1000 10 (query_frames (split_spaces "( a")) /\
  parse_expression split_spaces "( a" =
    Raise (ExpressionParserException (syntax_message RPAREN EOF)) /\
  match parse_expression split_spaces "( a" with
  | Ok _ => True
  | Raise e =>
      e = UnboundLocalError "node" \/
      exists received,
        received <> RPAREN /\
        e = ExpressionParserException (syntax_message RPAREN received)
  | OutOfFuel => False
  end.
Proof.
  assert (Hfits : fits 1000 10 (query_frames (split_spaces "( a")))
    by (unfold fits; apply Nat.leb_le; vm_compute; reflexivity).
  split; [exact Hfits |]. split; [vm_compute; reflexivity |].
  apply (parser_raises_only 1000 10 split_spaces "( a" Hfits).
Defined.

End ParserExceptions.

(** ** The parser accepts every derivation of the grammar *)
Section ParserComplete.
Import Boolean.

Scheme derives_term_mut := Minimality for derives_term Sort Prop
  with derives_conjunction_mut := Minimality for derives_conjunction Sort Prop
  with derives_expression_mut := Minimality for derives_expression Sort Prop.
Combined Scheme derives_mutind
  from derives_term_mut, derives_conjunction_mut, derives_expression_mut.

(** A derivation puts on the nodes of its tree the kinds the grammar asks
    for. *)
Lemma derives_well_formed :
  (forall ts t, derives_term ts t -> well_formed t) /\
  (forall ts t, derives_conjunction ts t -> well_formed t) /\
  (forall ts t, derives_expression ts t -> well_formed t).
Proof.
  apply derives_mutind; simpl; intros; auto.
Qed.

(** A tree is not higher than the tokens it is derived from are many. *)
Lemma derives_height :
  (forall ts t, derives_term ts t -> (height t <= length ts)%nat) /\
  (forall ts t, derives_conjunction ts t -> (height t <= length ts)%nat) /\
  (forall ts t, derives_expression ts t -> (height t <= length ts)%nat).
Proof.
  apply derives_mutind; simpl; intros; rewrite ?length_app; simpl; lia.
Qed.

(** The visit of a parsed tree nests no deeper than the bound for its
    parse. *)
Lemma parse_visit_frames (p p' : Parser) tree :
  parse p = (Ok tree, p') -> (visit_frames tree <= parse_frames p)%nat.
Proof.
  intros H. apply parse_sound in H as (ts & Hrem & Hd).
  apply (proj2 (proj2 derives_height)) in Hd.
  apply (f_equal (@length Token)) in Hrem.
  rewrite length_app in Hrem. unfold remaining in Hrem. simpl in Hrem.
  unfold visit_frames, parse_frames, parse_fuel, tokens_left. lia.
Qed.

(** The bound for the parser of a query is the bound for its tokens. *)
Lemma Parser_init_frames word_tokenize q (p : Parser) :
  Parser_init word_tokenize q = Ok p ->
  parse_frames p = query_frames (word_tokenize q).
Proof.
  intros Hi.
  destruct (Parser_init_ends_with_EOF word_tokenize q) as (p0 & Hi0 & _ & Hrem).
  rewrite Hi in Hi0. inversion Hi0; subst p0.
  apply (f_equal (@length Token)) in Hrem.
  unfold lexer in Hrem. rewrite length_map, length_app in Hrem.
  unfold remaining in Hrem. simpl in Hrem.
  unfold parse_frames, query_frames, parse_fuel, tokens_left. lia.
Qed.

(** An ingest of the kind of the current token, with another token behind
    it. *)
Lemma _ingest_next (p : Parser) t rest :
  remaining p = _current_token p :: t :: rest ->
  _ingest (type (_current_token p)) p =
  (Ok tt, {| _tokens := _tokens p; _tokens_stream := rest; _current_token := t |}).
Proof.
  unfold remaining. intros H. inversion H as [Hs].
  unfold _ingest, bind, gets, advance.
  destruct (decide (type (_current_token p) = type (_current_token p)));
    [| contradiction].
  rewrite Hs. reflexivity.
Qed.

(** What the two loops do with a token that does not continue them. *)
Lemma _conjunction_while_stop fuel node (p : Parser) :
  type (_current_token p) <> AND ->
  _conjunction_while (S fuel) node p = (Ok node, p).
Proof.
  intros H. cbn [_conjunction_while]. unfold bind, gets.
  destruct (decide (type (_current_token p) = AND)); [contradiction | reflexivity].
Qed.

Lemma _expression_while_stop fuel node (p : Parser) :
  type (_current_token p) <> OR ->
  _expression_while (S fuel) node p = (Ok node, p).
Proof.
  intros H. cbn [_expression_while]. unfold bind, gets.
  destruct (decide (type (_current_token p) = OR)); [contradiction | reflexivity].
Qed.

Lemma mono_term fuel fuel' : (fuel <= fuel')%nat -> refines (_term fuel) (_term fuel').
Proof. intros H. apply (parser_fuel_mono fuel fuel' H). Qed.

Lemma mono_conjunction fuel fuel' :
  (fuel <= fuel')%nat -> refines (_conjunction fuel) (_conjunction fuel').
Proof. intros H. apply (parser_fuel_mono fuel fuel' H). Qed.

Lemma mono_conjunction_while fuel fuel' node :
  (fuel <= fuel')%nat ->
  refines (_conjunction_while fuel node) (_conjunction_while fuel' node).
Proof. intros H. apply (parser_fuel_mono fuel fuel' H). Qed.

Lemma mono_expression_while fuel fuel' node :
  (fuel <= fuel')%nat ->
  refines (_expression_while fuel node) (_expression_while fuel' node).
Proof. intros H. apply (parser_fuel_mono fuel fuel' H). Qed.

Lemma remaining_cons (p : Parser) t l :
  remaining p = t :: l -> _current_token p = t /\ _tokens_stream p = l.
Proof. unfold remaining. intros H. inversion H. split; reflexivity. Qed.

Lemma parser_complete :
  (forall ts t, derives_term ts t -> parses_term ts t) /\
  (forall ts t, derives_conjunction ts t -> parses_conjunction ts t) /\
  (forall ts t, derives_expression ts t -> parses_expression ts t).
Proof.
  apply derives_mutind.
  - (* NOT term *)
    intros tok ts child Hty _ IH p nxt rest Hrem.
    simpl in Hrem. apply remaining_cons in Hrem as Hp. destruct Hp as [Hc Hs].
    destruct (ts ++ nxt :: rest)%list as [|t1 l1] eqn:El;
      [destruct ts; discriminate |].
    set (p1 := {| _tokens := _tokens p; _tokens_stream := l1; _current_token := t1 |}).
    destruct (IH p1 nxt rest) as (fuel & p' & Hrun & Hrem');
      [unfold remaining; simpl; congruence |].
    exists (S fuel), p'. split; [| exact Hrem'].
    cbn [_term]. unfold bind at 1, gets at 1. rewrite Hc, Hty.
    unfold bind at 1. rewrite <- Hty, <- Hc.
    rewrite (_ingest_next p t1 l1) by (unfold remaining; congruence).
    fold p1. unfold bind. rewrite Hrun. rewrite Hc. reflexivity.
  - (* TERM *)
    intros tok Hty p nxt rest Hrem.
    simpl in Hrem. apply remaining_cons in Hrem as Hp. destruct Hp as [Hc Hs].
    exists 1%nat, {| _tokens := _tokens p; _tokens_stream := rest; _current_token := nxt |}.
    split; [| reflexivity].
    cbn [_term]. unfold bind at 1, gets at 1. rewrite Hc, Hty.
    unfold bind at 1. rewrite <- Hty, <- Hc.
    rewrite (_ingest_next p nxt rest) by (unfold remaining; congruence).
    rewrite Hc. reflexivity.
  - (* ( expression ) *)
    intros l ts node r Hl _ IH Hr p nxt rest Hrem.
    simpl in Hrem. rewrite <- app_assoc in Hrem. simpl in Hrem.
    apply remaining_cons in Hrem as Hp. destruct Hp as [Hc Hs].
    destruct (ts ++ r :: nxt :: rest)%list as [|t1 l1] eqn:El;
      [destruct ts; discriminate |].
    set (p1 := {| _tokens := _tokens p; _tokens_stream := l1; _current_token := t1 |}).
    destruct (IH p1 r (nxt :: rest)) as (k & p2 & Hrem2 & Hrun);
      [unfold remaining; simpl; congruence | rewrite Hr; discriminate |].
    apply remaining_cons in Hrem2 as Hp2. destruct Hp2 as [Hc2 Hs2].
    assert (He : _expression (k + 1) p1 = (Ok node, p2)).
    { apply Hrun; [| discriminate].
      apply _expression_while_stop. rewrite Hc2, Hr. discriminate. }
    exists (S (k + 1)),
      {| _tokens := _tokens p2; _tokens_stream := rest; _current_token := nxt |}.
    split; [| reflexivity].
    cbn [_term]. unfold bind at 1, gets at 1. rewrite Hc, Hl.
    unfold bind at 1. rewrite <- Hl, <- Hc.
    rewrite (_ingest_next p t1 l1) by (unfold remaining; congruence).
    fold p1. unfold bind at 1. rewrite He.
    unfold bind. rewrite <- Hr, <- Hc2.
    rewrite (_ingest_next p2 nxt rest) by (unfold remaining; congruence).
    reflexivity.
  - (* conjunction := term *)
    intros ts node _ IH p nxt rest Hrem.
    destruct (IH p nxt rest Hrem) as (fuel & p' & Hrun & Hrem').
    exists (S fuel), p'. split; [exact Hrem' |].
    intros f r q Hw Hne. cbn [Nat.add _conjunction]. unfold bind.
    rewrite (mono_term fuel (fuel + f) ltac:(lia) p (Ok node) p' Hrun)
      by discriminate.
    apply (mono_conjunction_while f (fuel + f) node ltac:(lia)); assumption.
  - (* conjunction := conjunction AND term *)
    intros ts1 left op ts2 right _ IH1 Hop _ IH2 p nxt rest Hrem.
    rewrite <- app_assoc in Hrem. simpl in Hrem.
    destruct (IH1 p op (ts2 ++ nxt :: rest)%list Hrem) as (k1 & p1 & Hrem1 & Hrun1).
    apply remaining_cons in Hrem1 as Hp1. destruct Hp1 as [Hc1 Hs1].
    destruct (ts2 ++ nxt :: rest)%list as [|t2 l2] eqn:El;
      [destruct ts2; discriminate |].
    set (p2 := {| _tokens := _tokens p1; _tokens_stream := l2; _current_token := t2 |}).
    destruct (IH2 p2 nxt rest) as (f2 & p3 & Hrun2 & Hrem3);
      [unfold remaining; simpl; congruence |].
    exists (k1 + S f2)%nat, p3. split; [exact Hrem3 |].
    intros f r q Hw Hne.
    replace (k1 + S f2 + f)%nat with (k1 + S (f2 + f))%nat by lia.
    apply Hrun1; [| exact Hne].
    cbn [_conjunction_while]. unfold bind at 1, gets at 1.
    destruct (decide (type (_current_token p1) = AND)) as [_|Hn];
      [| exfalso; apply Hn; rewrite Hc1; exact Hop].
    unfold bind at 1. rewrite <- Hop, <- Hc1.
    rewrite (_ingest_next p1 t2 l2) by (unfold remaining; congruence).
    fold p2. unfold bind.
    rewrite (mono_term f2 (f2 + f) ltac:(lia) p2 (Ok right) p3 Hrun2)
      by discriminate.
    rewrite Hc1.
    apply (mono_conjunction_while f (f2 + f) _ ltac:(lia)); assumption.
  - (* expression := conjunction *)
    intros ts node _ IH p nxt rest Hrem Hnxt.
    destruct (IH p nxt rest Hrem) as (k & p' & Hrem' & Hrun).
    apply remaining_cons in Hrem' as Hp'. destruct Hp' as [Hc' Hs'].
    assert (Hc : forall f, _conjunction (k + S f) p = (Ok node, p')).
    { intros f. apply Hrun; [| discriminate].
      apply _conjunction_while_stop. rewrite Hc'. exact Hnxt. }
    exists (S (k + 1)), p'. split; [unfold remaining; congruence |].
    intros f r q Hw Hne. cbn [Nat.add _expression]. unfold bind.
    replace (k + 1 + f)%nat with (k + S f)%nat by lia.
    rewrite Hc.
    apply (mono_expression_while f (k + S f) node ltac:(lia)); assumption.
  - (* expression := expression OR conjunction *)
    intros ts1 left op ts2 right _ IH1 Hop _ IH2 p nxt rest Hrem Hnxt.
    rewrite <- app_assoc in Hrem. simpl in Hrem.
    destruct (IH1 p op (ts2 ++ nxt :: rest)%list Hrem) as (k1 & p1 & Hrem1 & Hrun1);
      [rewrite Hop; discriminate |].
    apply remaining_cons in Hrem1 as Hp1. destruct Hp1 as [Hc1 Hs1].
    destruct (ts2 ++ nxt :: rest)%list as [|t2 l2] eqn:El;
      [destruct ts2; discriminate |].
    set (p2 := {| _tokens := _tokens p1; _tokens_stream := l2; _current_token := t2 |}).
    destruct (IH2 p2 nxt rest) as (k2 & p3 & Hrem3 & Hrun2);
      [unfold remaining; simpl; congruence |].
    apply remaining_cons in Hrem3 as Hp3. destruct Hp3 as [Hc3 Hs3].
    assert (Hc : forall f, _conjunction (k2 + S f) p2 = (Ok right, p3)).
    { intros f. apply Hrun2; [| discriminate].
      apply _conjunction_while_stop. rewrite Hc3. exact Hnxt. }
    exists (k1 + S (k2 + 1))%nat, p3. split; [unfold remaining; congruence |].
    intros f r q Hw Hne.
    replace (k1 + S (k2 + 1) + f)%nat with (k1 + S (k2 + S f))%nat by lia.
    apply Hrun1; [| exact Hne].
    cbn [_expression_while]. unfold bind at 1, gets at 1.
    destruct (decide (type (_current_token p1) = OR)) as [_|Hn];
      [| exfalso; apply Hn; rewrite Hc1; exact Hop].
    unfold bind at 1. rewrite <- Hop, <- Hc1.
    rewrite (_ingest_next p1 t2 l2) by (unfold remaining; congruence).
    fold p2. unfold bind. rewrite Hc. rewrite Hc1.
    apply (mono_expression_while f (k2 + S f) _ ltac:(lia)); assumption.
Qed.

End ParserComplete.

Section ParserCompleteTheorems.
Import Boolean.

(** Tokens that derive a tree, in front of a token that does not continue
    an expression, parse to that tree. *)
Lemma parse_derivation ts tree (p : Parser) nxt rest :
  derives_expression ts tree ->
  remaining p = (ts ++ nxt :: rest)%list ->
  type nxt <> AND -> type nxt <> OR ->
  exists p', parse p = (Ok tree, p') /\ remaining p' = nxt :: rest.
Proof.
  intros Hd Hrem Hand Hor.
  destruct (proj2 (proj2 parser_complete) ts tree Hd p nxt rest Hrem Hand)
    as (k & p' & Hrem' & Hrun).
  exists p'. split; [| exact Hrem'].
  apply (parse_any_fuel (k + 1)); [| discriminate].
  apply Hrun; [| discriminate].
  apply _expression_while_stop.
  apply remaining_cons in Hrem' as [-> _]. exact Hor.
Qed.

(** X3.  The parser accepts every derivation of the grammar, where its
    descent stays under the recursion limit: tokens that derive a tree as
    an [expression], followed by a token other than AND and OR, parse to
    that tree, whatever comes after that token; a query whose tokens derive
    a tree parses to it; and the tokens of a query derive at most one
    tree. *)
Theorem parser_accepts_derivations :
  (forall (recursion_limit frames_in_use : nat)
          (ts : list Token) (tree : ParseTree) (p : Parser) (nxt : Token)
          (rest : list Token),
      fits recursion_limit frames_in_use (parse_frames p) ->
      derives_expression ts tree ->
      remaining p = (ts ++ nxt :: rest)%list ->
      type nxt <> AND -> type nxt <> OR ->
      exists p', parse p = (Ok tree, p') /\ remaining p' = nxt :: rest) /\
  (forall (recursion_limit frames_in_use : nat)
          (word_tokenize : string -> list string) (q : string) (tree : ParseTree),
      fits recursion_limit frames_in_use (query_frames (word_tokenize q)) ->
      derives_expression (lexer (word_tokenize q)) tree ->
      parse_expression word_tokenize q = Ok tree) /\
  (forall (ts : list Token) (t1 t2 : ParseTree),
      derives_expression ts t1 -> derives_expression ts t2 -> t1 = t2).
Proof.
  split; [intros; eapply parse_derivation; eassumption |]. split.
  - intros limit frames tok q tree _ Hd.
    destruct (Parser_init_ends_with_EOF tok q) as (p & Hi & _ & Hrem).
    rewrite lexer_app in Hrem. simpl in Hrem.
    destruct (parse_derivation _ _ p _ [] Hd Hrem) as (p' & Hp & _);
      [discriminate | discriminate |].
    unfold parse_expression. rewrite Hi, Hp. reflexivity.
  - intros ts t1 t2 Hd1 Hd2.
    destruct (ts ++ [mkToken "" EOF])%list as [|t l] eqn:El;
      [destruct ts; discriminate |].
    set (p := {| _tokens := t :: l; _tokens_stream := l; _current_token := t |}).
    assert (Hrem : remaining p = (ts ++ mkToken "" EOF :: [])%list)
      by (unfold remaining; simpl; congruence).
    destruct (parse_derivation _ _ p _ _ Hd1 Hrem) as (p1 & Hp1 & _);
      [discriminate | discriminate |].
    destruct (parse_derivation _ _ p _ _ Hd2 Hrem) as (p2 & Hp2 & _);
      [discriminate | discriminate |].
    congruence.
Qed.

Lemma parser_accepts_derivations_witness :
  fits 1000 10
    (parse_frames
       {| _tokens := []; _current_token := mkToken "a" TERM;
          _tokens_stream :=
            [mkToken "AND" AND; mkToken "b" TERM; mkToken ")" RPAREN;
             mkToken "c" TERM] |}) /\
  fits 1000 10 (query_frames (split_spaces "a AND b")) /\
  (exists p',
      parse {| _tokens := []; _current_token := mkToken "a" TERM;
               _tokens_stream :=
                 [mkToken "AND" AND; mkToken "b" TERM; mkToken ")" RPAREN;
                  mkToken "c" TERM] |} =
        (Ok (BinOp (Term (mkToken "a" TERM)) (mkToken "AND" AND)
               (Term (mkToken "b" TERM))), p') /\
      remaining p' = [mkToken ")" RPAREN; mkToken "c" TERM]) /\
  parse_expression split_spaces "a AND b" =
    Ok (BinOp (Term (mkToken "a" TERM)) (mkToken "AND" AND) (Term (mkToken "b" TERM))).
Proof.
  assert (Hd : derives_expression
                 [mkToken "a" TERM; mkToken "AND" AND; mkToken "b" TERM]
                 (BinOp (Term (mkToken "a" TERM)) (mkToken "AND" AND)
                    (Term (mkToken "b" TERM)))).
  { apply derives_expression_conjunction.
    apply (derives_AND [mkToken "a" TERM] _ (mkToken "AND" AND) [mkToken "b" TERM]).
    - apply derives_conjunction_term, derives_TERM. reflexivity.
    - reflexivity.
    - apply derives_TERM. reflexivity. }
  assert (Hfits1 : fits 1000 10
            (parse_frames
               {| _tokens := []; _current_token := mkToken "a" TERM;
                  _tokens_stream :=
                    [mkToken "AND" AND; mkToken "b" TERM; mkToken ")" RPAREN;
                     mkToken "c" TERM] |}))
    by (unfold fits; apply Nat.leb_le; vm_compute; reflexivity).
  assert (Hfits2 : fits 1000 10 (query_frames (split_spaces "a AND b")))
    by (unfold fits; apply Nat.leb_le; vm_compute; reflexivity).
  split; [exact Hfits1 |]. split; [exact Hfits2 |]. split.
  - apply (proj1 parser_accepts_derivations 1000%nat 10%nat _ _ _ _ _ Hfits1 Hd);
      [reflexivity | discriminate | discriminate].
  - apply (proj1 (proj2 parser_accepts_derivations) 1000%nat 10%nat
             split_spaces "a AND b" _ Hfits2 Hd).
Defined.

(** A tree that the parser returns is well formed: a binary node carries
    an AND or an OR token, a unary node a NOT token, a leaf a TERM token. *)
Lemma parse_well_formed (p p' : Parser) tree :
  parse p = (Ok tree, p') -> well_formed tree.
Proof.
  intros H. apply parse_sound in H as (ts & _ & Hd).
  apply (proj2 (proj2 derives_well_formed) ts tree Hd).
Qed.

(** The visit of a well-formed tree returns: the branch of [_visit_binop]
    for an operator that is neither AND nor OR is not taken. *)
Lemma _visit_well_formed tree : forall self,
  well_formed tree -> exists r self', _visit tree self = (Ok r, self').
Proof.
  induction tree as [l IHl op r IHr | tok | op child IH]; intros self Hwf.
  - destruct Hwf as (Hop & Hl & Hr).
    destruct (IHl self Hl) as (lp & s1 & El).
    destruct (IHr s1 Hr) as (rp & s2 & Er).
    destruct Hop as [Hop|Hop].
    + rewrite (_visit_AND _ _ _ _ Hop).
      rewrite (bind_Ok _ _ _ _ _ El), (bind_Ok _ _ _ _ _ Er).
      destruct lp, rp; eexists _, _; reflexivity.
    + rewrite (_visit_OR _ _ _ _ Hop).
      rewrite (bind_Ok _ _ _ _ _ El), (bind_Ok _ _ _ _ _ Er).
      eexists _, _; reflexivity.
  - rewrite _visit_Term. eexists _, _; reflexivity.
  - destruct Hwf as (_ & Hc). simpl. unfold _visit_unaryop.
    unfold bind at 1, gets at 1.
    destruct (IH self Hc) as (r & s1 & E).
    rewrite (bind_Ok _ _ _ _ _ E). eexists _, _; reflexivity.
Qed.

End ParserCompleteTheorems.

(** ** The parser: where it stops *)
Section ParserStops.
Import Boolean.

Lemma parser_stops fuel : forall p : Parser,
  wp True (_conjunction fuel) p (fun _ p' => type (_current_token p') <> AND) /\
  (forall node,
      wp True (_conjunction_while fuel node) p
        (fun _ p' => type (_current_token p') <> AND)) /\
  wp True (_expression fuel) p
    (fun _ p' => type (_current_token p') <> AND /\ type (_current_token p') <> OR) /\
  (forall node,
      type (_current_token p) <> AND ->
      wp True (_expression_while fuel node) p
        (fun _ p' => type (_current_token p') <> AND /\ type (_current_token p') <> OR)).
Proof.
  induction fuel as [|fuel IH]; intros p.
  { repeat split; intros; exact I. }
  split; [| split; [| split]].
  - cbn [_conjunction]. apply wp_bind.
    unfold wp at 1. destruct (_term fuel p) as [[node|e|] p1]; try exact I.
    apply (proj1 (proj2 (IH p1))).
  - intros node. cbn [_conjunction_while]. apply wp_bind. unfold wp at 1, gets.
    destruct (decide (type (_current_token p) = AND)) as [Hand|Hn]; [| exact Hn].
    apply wp_bind, wp_ingest. intros p1 _ _.
    apply wp_bind.
    unfold wp at 1. destruct (_term fuel p1) as [[right|e|] p2]; try exact I.
    apply (proj1 (proj2 (IH p2))).
  - cbn [_expression]. apply wp_bind.
    eapply wp_mono; [apply (proj1 (IH p)) |].
    intros node p1 H1. apply (proj2 (proj2 (proj2 (IH p1)))), H1.
  - intros node Hp. cbn [_expression_while]. apply wp_bind. unfold wp at 1, gets.
    destruct (decide (type (_current_token p) = OR)) as [Hor|Hn];
      [| unfold wp, ret; split; assumption].
    apply wp_bind, wp_ingest. intros p1 _ _.
    apply wp_bind.
    eapply wp_mono; [apply (proj1 (IH p1)) |].
    intros right p2 H2. apply (proj2 (proj2 (proj2 (IH p2)))), H2.
Qed.

(** X4.  A parse that returns has consumed at least one token, has built a well
    formed tree, and has stopped in front of a token that is neither AND
    nor OR; it does not ask that token to be the end marker. *)
Theorem parse_returns_well_formed :
  forall (p p' : Parser) (tree : ParseTree),
    parse p = (Ok tree, p') ->
    well_formed tree /\
    (tokens_left p' < tokens_left p)%nat /\
    type (_current_token p') <> AND /\
    type (_current_token p') <> OR.
Proof.
  intros p p' tree H. split; [eapply parse_well_formed, H |]. split.
  - pose proof (proj1 (proj2 (proj2 (proj2 (parser_fuel (parse_fuel p) p))))) as Hf.
    unfold wp in Hf. unfold parse in H. rewrite H in Hf.
    apply Hf. unfold parse_fuel. lia.
  - pose proof (proj1 (proj2 (proj2 (parser_stops (parse_fuel p) p)))) as Hs.
    unfold wp in Hs. unfold parse in H. rewrite H in Hs. exact Hs.
Qed.

Lemma parse_returns_well_formed_witness :
  well_formed (Term (mkToken "a" TERM)) /\
  (tokens_left (snd (parse {| _tokens := []; _current_token := mkToken "a" TERM;
                              _tokens_stream := [mkToken "b" TERM; mkToken ")" RPAREN] |}))
   < 3)%nat /\
  type (mkToken "b" TERM) <> AND /\
  type (mkToken "b" TERM) <> OR.
Proof.
  apply (parse_returns_well_formed
           {| _tokens := []; _current_token := mkToken "a" TERM;
              _tokens_stream := [mkToken "b" TERM; mkToken ")" RPAREN] |}
           {| _tokens := []; _current_token := mkToken "b" TERM;
              _tokens_stream := [mkToken ")" RPAREN] |}
           (Term (mkToken "a" TERM))).
  reflexivity.
Defined.

End ParserStops.

(** ** The boolean evaluator: outcomes, finalization, reuse *)
Section EvaluatorMore.
Import Boolean.

(** [evaluate], step by step. *)
Lemma evaluate_steps self :
  evaluate self =
  match parse (_parser self) with
  | (Ok tree, p') =>
      match _visit tree {| _parser := p'; _index := _index self;
                           eval_result := EvaluationResult.new |} with
      | (Ok r, s2) =>
          let res := EvaluationResult.update_results (default [] r) (eval_result s2) in
          (Ok res, {| _parser := _parser s2; _index := _index s2; eval_result := res |})
      | (Raise e, s2) => (Raise e, s2)
      | (OutOfFuel, s2) => (OutOfFuel, s2)
      end
  | (Raise e, p') =>
      (Raise e, {| _parser := p'; _index := _index self;
                   eval_result := EvaluationResult.new |})
  | (OutOfFuel, p') =>
      (OutOfFuel, {| _parser := p'; _index := _index self;
                     eval_result := EvaluationResult.new |})
  end.
Proof.
  unfold evaluate, bind at 1. unfold _reset at 1, on_eval_result, modify.
  unfold bind at 1, on_parser at 1. cbn [_parser _index eval_result].
  destruct (parse (_parser self)) as [[tree|e|] p']; reflexivity.
Qed.

(** The parser of the evaluator after an evaluation is the parser after the
    parse, whatever the outcome. *)
Lemma evaluate_parser self :
  _parser (snd (evaluate self)) = snd (parse (_parser self)).
Proof.
  rewrite evaluate_steps.
  destruct (parse (_parser self)) as [[tree|e|] p'] eqn:Ep; try reflexivity.
  pose proof (_visit_frame tree
    {| _parser := p'; _index := _index self; eval_result := EvaluationResult.new |})
    as [Hp _].
  destruct (_visit tree _) as [[r|e|] s2]; exact Hp.
Qed.

(** An evaluation returns when its parse returns. *)
Lemma evaluate_returns self tree p' :
  parse (_parser self) = (Ok tree, p') -> exists res, fst (evaluate self) = Ok res.
Proof.
  intros Ep. rewrite evaluate_steps, Ep.
  pose proof (parse_well_formed _ _ _ Ep) as Hwf.
  destruct (_visit_well_formed tree
              {| _parser := p'; _index := _index self;
                 eval_result := EvaluationResult.new |} Hwf) as (r & s2 & Hv).
  rewrite Hv. eexists. reflexivity.
Qed.

(** X5.  The outcome of an evaluation whose parse stays under the recursion
    limit is decided by the parse: it raises the exception of the parse
    when the parse raises, and otherwise the visit of the tree stays under
    the limit as well, and the evaluation returns.  (The evaluator's own
    exception, for a binary operator that is neither AND nor OR, is never
    raised; the functions of [search] are taken to return.) *)
Theorem evaluate_raises_as_parse :
  forall (recursion_limit frames_in_use : nat) (self : Evaluator),
    fits recursion_limit frames_in_use (parse_frames (_parser self)) ->
    match fst (parse (_parser self)) with
    | Ok tree =>
        fits recursion_limit frames_in_use (visit_frames tree) /\
        exists res, fst (evaluate self) = Ok res
    | Raise e => fst (evaluate self) = Raise e
    | OutOfFuel => False
    end.
Proof.
  intros limit frames self Hfits.
  pose proof (parse_enough_fuel (_parser self)) as Hf.
  destruct (parse (_parser self)) as [[tree|e|] p'] eqn:Ep; cbn [fst] in Hf |- *;
    [| | contradiction].
  - split; [| eapply evaluate_returns, Ep].
    pose proof (parse_visit_frames _ _ _ Ep) as Hv. unfold fits in *. lia.
  - rewrite evaluate_steps, Ep. reflexivity.
Qed.

Lemma evaluate_raises_as_parse_witness :
  fits 1000 10
    (parse_frames
       {| _tokens := []; _current_token := mkToken "a" TERM;
          _tokens_stream := [mkToken "AND" AND; mkToken "##EOF##" EOF] |}) /\
  fst (evaluate
         (Evaluator_init
            {| _tokens := []; _current_token := mkToken "a" TERM;
               _tokens_stream := [mkToken "AND" AND; mkToken "##EOF##" EOF] |}
            Sample.index_abc)) =
    Raise (UnboundLocalError "node").
Proof.
  assert (Hfits : fits 1000 10
            (parse_frames
               {| _tokens := []; _current_token := mkToken "a" TERM;
                  _tokens_stream := [mkToken "AND" AND; mkToken "##EOF##" EOF] |}))
    by (unfold fits; apply Nat.leb_le; vm_compute; reflexivity).
  split; [exact Hfits |].
  apply (evaluate_raises_as_parse 1000 10
           (Evaluator_init
              {| _tokens := []; _current_token := mkToken "a" TERM;
                 _tokens_stream := [mkToken "AND" AND; mkToken "##EOF##" EOF] |}
              Sample.index_abc) Hfits).
Defined.

(** X6.  An [Evaluator] serves once.  The evaluation of a query whose tokens
    derive a tree, where it stays under the recursion limit, returns; it
    leaves the parser at the end marker, and a second [evaluate] of the
    same object raises the unbound local of [_term], with the aggregator of
    the evaluator reset. *)
Theorem evaluate_twice_raises :
  forall (recursion_limit frames_in_use : nat)
         (word_tokenize : string -> list string) (q : string) (tree : ParseTree)
         (index : InvertedIndex.t),
    fits recursion_limit frames_in_use (query_frames (word_tokenize q)) ->
    derives_expression (lexer (word_tokenize q)) tree ->
    exists parser res self',
      Parser_init word_tokenize q = Ok parser /\
      fits recursion_limit frames_in_use (visit_frames tree) /\
      evaluate (Evaluator_init parser index) = (Ok res, self') /\
      type (_current_token (_parser self')) = EOF /\
      fst (evaluate self') = Raise (UnboundLocalError "node") /\
      eval_result (snd (evaluate self')) = EvaluationResult.new.
Proof.
  intros limit frames tok q tree index Hfits Hd.
  destruct (Parser_init_ends_with_EOF tok q) as (p & Hi & _ & Hrem).
  rewrite lexer_app in Hrem. simpl in Hrem.
  destruct (parse_derivation _ _ p _ [] Hd Hrem) as (p' & Hp & Hrem');
    [discriminate | discriminate |].
  apply remaining_cons in Hrem' as [Hc' Hs'].
  destruct (evaluate_returns (Evaluator_init p index) tree p' Hp) as (res & Hres).
  destruct (evaluate (Evaluator_init p index)) as [r1 self'] eqn:Ee.
  cbn [fst] in Hres. subst r1.
  pose proof (evaluate_parser (Evaluator_init p index)) as Hpar.
  rewrite Ee in Hpar. cbn [snd _parser Evaluator_init] in Hpar.
  rewrite Hp in Hpar. cbn [snd] in Hpar.
  exists p, res, self'. split; [exact Hi |]. split.
  { pose proof (parse_visit_frames _ _ _ Hp) as Hv.
    rewrite (Parser_init_frames tok q p Hi) in Hv. unfold fits in *. lia. }
  split; [exact Ee |].
  assert (Hty : type (_current_token (_parser self')) = EOF)
    by (rewrite Hpar, Hc'; reflexivity).
  split; [exact Hty |].
  rewrite evaluate_steps.
  assert (Hp2 : parse (_parser self') = (Raise (UnboundLocalError "node"), _parser self')).
  { apply (parse_any_fuel 3); [| discriminate].
    cbn [_expression _conjunction]. unfold bind at 1. unfold bind at 1.
    rewrite _term_no_branch by (rewrite Hty; discriminate). reflexivity. }
  rewrite Hp2. split; reflexivity.
Qed.

Lemma evaluate_twice_raises_witness :
  fits 1000 10 (query_frames (split_spaces "NOT a")) /\
  exists parser res self',
    Parser_init split_spaces "NOT a" = Ok parser /\
    fits 1000 10
      (visit_frames (UnaryOp (mkToken "NOT" NOT) (Term (mkToken "a" TERM)))) /\
    evaluate (Evaluator_init parser Sample.index_abc) = (Ok res, self') /\
    type (_current_token (_parser self')) = EOF /\
    fst (evaluate self') = Raise (UnboundLocalError "node") /\
    eval_result (snd (evaluate self')) = EvaluationResult.new.
Proof.
  assert (Hfits : fits 1000 10 (query_frames (split_spaces "NOT a")))
    by (unfold fits; apply Nat.leb_le; vm_compute; reflexivity).
  split; [exact Hfits |].
  apply (evaluate_twice_raises 1000 10 split_spaces "NOT a"
           (UnaryOp (mkToken "NOT" NOT) (Term (mkToken "a" TERM))) _ Hfits).
  apply derives_expression_conjunction, derives_conjunction_term.
  apply (derives_NOT (mkToken "NOT" NOT) [mkToken "a" TERM]); [reflexivity |].
  apply derives_TERM. reflexivity.
Defined.

(** The last posting of a document, one posting more to the left. *)
Lemma last_posting_cons d p ps :
  last_posting d (p :: ps) =
  match last_posting d ps with
  | Some p' => Some p'
  | None => if decide (docid p = d) then Some p else None
  end.
Proof.
  unfold last_posting. rewrite filter_cons.
  destruct (decide (docid p = d)); [| destruct (last _); reflexivity].
  destruct (filter _ ps) as [|p' l']; [reflexivity |].
  rewrite last_cons. destruct (last (p' :: l')); reflexivity.
Qed.

Lemma results_lookup (tm : gmap Z (list string)) qr : forall (m0 : gmap Z EvaluationResult.entry) d,
  fold_left
    (fun m posting =>
       <[docid posting :=
           {| EvaluationResult.entry_positions := positions posting;
              EvaluationResult.entry_terms :=
                match tm !! docid posting with
                | Some terms => terms
                | None => []
                end |}]> m)
    qr m0 !! d =
  match last_posting d qr with
  | Some p =>
      Some {| EvaluationResult.entry_positions := positions p;
              EvaluationResult.entry_terms := default [] (tm !! d) |}
  | None => m0 !! d
  end.
Proof.
  induction qr as [|p qr IH]; intros m0 d; [reflexivity |].
  cbn [fold_left]. rewrite IH, last_posting_cons.
  destruct (last_posting d qr); [reflexivity |].
  destruct (decide (docid p = d)) as [->|Hne].
  - rewrite lookup_insert_eq. destruct (tm !! d); reflexivity.
  - rewrite lookup_insert_ne by exact Hne. reflexivity.
Qed.

(** X7.  An evaluation that returns has finalized its result: [complete] is set,
    [query_result] is a list (the empty one when the visit of the tree
    answered [None]), and [results] has an entry exactly for the documents
    of [query_result], with the positions of the last posting of the
    document and with the terms recorded for it. *)
Theorem evaluate_finalizes :
  forall (self self' : Evaluator) (res : EvaluationResult.t),
    evaluate self = (Ok res, self') ->
    EvaluationResult.complete res = true /\
    eval_result self' = res /\
    exists qr m,
      EvaluationResult.query_result res = Some qr /\
      EvaluationResult.results res = Some m /\
      (forall d, is_Some (m !! d) <-> d ∈ docids qr) /\
      (forall d,
          m !! d =
          (fun p => {| EvaluationResult.entry_positions := positions p;
                       EvaluationResult.entry_terms :=
                         EvaluationResult.get_terms d res |})
            <$> last_posting d qr).
Proof.
  intros self self' res H. rewrite evaluate_steps in H.
  destruct (parse (_parser self)) as [[tree|e|] p']; try discriminate.
  destruct (_visit tree _) as [[r|e|] s2]; try discriminate.
  cbv zeta in H. inversion H; subst; clear H.
  split; [reflexivity |]. split; [reflexivity |].
  eexists _, _. split; [reflexivity |]. split; [reflexivity |].
  assert (Hl : forall d,
             fold_left
               (fun m posting =>
                  <[docid posting :=
                      {| EvaluationResult.entry_positions := positions posting;
                         EvaluationResult.entry_terms :=
                           match EvaluationResult.term_map (eval_result s2) !! docid posting with
                           | Some terms => terms
                           | None => []
                           end |}]> m)
               (default [] r) (∅ : gmap Z EvaluationResult.entry) !! d =
             (fun p => {| EvaluationResult.entry_positions := positions p;
                          EvaluationResult.entry_terms :=
                            EvaluationResult.get_terms d
                              (EvaluationResult.update_results (default [] r)
                                 (eval_result s2)) |})
               <$> last_posting d (default [] r)).
  { intros d. rewrite results_lookup, lookup_empty.
    rewrite (get_terms_default d (EvaluationResult.update_results _ _)).
    cbn [EvaluationResult.term_map EvaluationResult.update_results].
    destruct (last_posting d (default [] r)); reflexivity. }
  split; [| exact Hl].
  intros d. rewrite Hl. unfold last_posting, docids.
  rewrite list_elem_of_In, in_map_iff. split.
  - intros [e He]. destruct (last (filter _ _)) as [p|] eqn:El; [| discriminate].
    apply last_Some_elem_of, list_elem_of_filter in El as [Hd Hin].
    exists p. split; [exact Hd | apply list_elem_of_In, Hin].
  - intros (p & Hd & Hin).
    destruct (last (filter (fun p0 => docid p0 = d) (default [] r))) as [p1|] eqn:El;
      [eexists; reflexivity |].
    apply last_None in El.
    assert (Hf : p ∈ filter (fun p0 => docid p0 = d) (default [] r))
      by (apply list_elem_of_filter; split; [exact Hd | apply list_elem_of_In, Hin]).
    rewrite El in Hf. inversion Hf.
Qed.

Lemma evaluate_finalizes_witness :
  EvaluationResult.complete
    (eval_result (snd (evaluate (Sample.evaluator "x AND y" Sample.index_xy)))) = true.
Proof.
  apply (evaluate_finalizes (Sample.evaluator "x AND y" Sample.index_xy)
           (snd (evaluate (Sample.evaluator "x AND y" Sample.index_xy)))
           (eval_result (snd (evaluate (Sample.evaluator "x AND y" Sample.index_xy))))).
  vm_compute. reflexivity.
Defined.

Lemma _visit_postings_map node : forall self r self',
  _visit node self = (Ok r, self') ->
  forall t,
    EvaluationResult.postings_map (eval_result self') !! t =
    if decide (t ∈ tree_terms node)
    then Some (default [] (InvertedIndex.get_postings (_index self) t))
    else EvaluationResult.postings_map (eval_result self) !! t.
Proof.
  induction node as [l IHl op r IHr | tok | op child IH]; intros self res self' H t.
  - assert (Hlr : exists lp rp s1,
               _visit l self = (Ok lp, s1) /\ _visit r s1 = (Ok rp, self')).
    { simpl in H. unfold _visit_binop in H.
      destruct (type op); try discriminate.
      - apply bind_Ok_inv in H as (lp & s1 & Hl & H).
        apply bind_Ok_inv in H as (rp & s2 & Hr & H).
        inversion H; subst. eauto.
      - apply bind_Ok_inv in H as (lp & s1 & Hl & H).
        apply bind_Ok_inv in H as (rp & s2 & Hr & H).
        assert (self' = s2) as -> by (destruct lp, rp; inversion H; reflexivity).
        eauto. }
    destruct Hlr as (lp & rp & s1 & Hl & Hr).
    rewrite (IHr _ _ _ Hr t), (IHl _ _ _ Hl t).
    pose proof (_visit_frame l self) as [_ Hi]. rewrite Hl in Hi. simpl in Hi.
    rewrite Hi. simpl.
    destruct (decide (t ∈ tree_terms r)) as [Hr'|Hr'];
      destruct (decide (t ∈ tree_terms l)) as [Hl'|Hl'];
      destruct (decide (t ∈ (tree_terms l ++ tree_terms r)%list)) as [Hb|Hb];
      try reflexivity; exfalso; rewrite elem_of_app in Hb; tauto.
  - simpl in H. rewrite _visit_term_spec in H. inversion H; subst. simpl.
    destruct (decide (t ∈ [value tok])) as [Hin|Hnin].
    + apply list_elem_of_singleton in Hin. rewrite Hin. apply lookup_insert_eq.
    + rewrite lookup_insert_ne; [reflexivity |].
      intros Heq. apply Hnin. apply list_elem_of_singleton. symmetry. exact Heq.
  - simpl in H. unfold _visit_unaryop in H.
    apply bind_Ok_inv in H as (u & s1 & Hu & H). inversion Hu; subst.
    apply bind_Ok_inv in H as (rp & s2 & Hr & H). inversion H; subst.
    simpl. apply (IH _ _ _ Hr t).
Qed.

(** X8.  After an evaluation that returns, [postings_map] has a key for every
    term of the parsed tree and for nothing else; its value is the postings
    that the index answers for the term, and the empty list for a term that
    the index does not know. *)
Theorem postings_map_records_visited_terms :
  forall (self self' : Evaluator) (res : EvaluationResult.t)
         (tree : ParseTree) (parser' : Parser),
    parse (_parser self) = (Ok tree, parser') ->
    evaluate self = (Ok res, self') ->
    forall t : string,
      EvaluationResult.postings_map res !! t =
      if decide (t ∈ tree_terms tree)
      then Some (default [] (InvertedIndex.get_postings (_index self) t))
      else None.
Proof.
  intros self self' res tree parser' Hp He t.
  apply evaluate_Ok_inv in He as (tree' & p' & r & s2 & Hp' & Hv & ->).
  rewrite Hp in Hp'. inversion Hp'; subst tree' p'; clear Hp'.
  cbn [EvaluationResult.postings_map EvaluationResult.update_results].
  rewrite (_visit_postings_map _ _ _ _ Hv t). reflexivity.
Qed.

Lemma postings_map_records_visited_terms_witness :
  EvaluationResult.postings_map
    (eval_result (snd (evaluate (Sample.evaluator "x AND y" Sample.index_y)))) !! "x" =
  Some [].
Proof.
  apply (postings_map_records_visited_terms
           (Sample.evaluator "x AND y" Sample.index_y)
           (snd (evaluate (Sample.evaluator "x AND y" Sample.index_y)))
           (eval_result (snd (evaluate (Sample.evaluator "x AND y" Sample.index_y))))
           (BinOp (Term (mkToken "x" TERM)) (mkToken "AND" AND) (Term (mkToken "y" TERM)))
           (snd (parse (_parser (Sample.evaluator "x AND y" Sample.index_y))))
           eq_refl).
  vm_compute. reflexivity.
Defined.

(** The visit of a tree answers [None] exactly for a tree built with AND
    from terms that the index does not know: an OR node and a NOT node
    always answer a list. *)
Lemma _visit_None node : forall self r self',
  _visit node self = (Ok r, self') ->
  (r = None <-> all_absent (_index self) node).
Proof.
  induction node as [l IHl op r IHr | tok | op child IH]; intros self res self' H.
  - simpl in H. unfold _visit_binop in H. simpl.
    destruct (type op) eqn:Hop; try discriminate.
    + apply bind_Ok_inv in H as (lp & s1 & Hl & H).
      apply bind_Ok_inv in H as (rp & s2 & Hr & H).
      inversion H; subst. split; [discriminate | intros [Hc _]; discriminate].
    + apply bind_Ok_inv in H as (lp & s1 & Hl & H).
      apply bind_Ok_inv in H as (rp & s2 & Hr & H).
      pose proof (IHl _ _ _ Hl) as Hil. pose proof (IHr _ _ _ Hr) as Hir.
      pose proof (_visit_frame l self) as [_ Hi]. rewrite Hl in Hi. simpl in Hi.
      rewrite Hi in Hir.
      destruct lp, rp; inversion H; subst; split;
        try discriminate; try (intros _; repeat split; tauto);
        intros (_ & Ha & Hb);
        try (apply Hil in Ha; discriminate); try (apply Hir in Hb; discriminate).
  - simpl in H. rewrite _visit_term_spec in H. inversion H; subst. simpl. reflexivity.
  - simpl in H. unfold _visit_unaryop in H.
    apply bind_Ok_inv in H as (u & s1 & Hu & H). inversion Hu; subst.
    apply bind_Ok_inv in H as (rp & s2 & Hr & H). inversion H; subst.
    simpl. split; [discriminate | contradiction].
Qed.

(** X9.  The result of a query built with AND from terms that the index does
    not know is the empty list, with no entry in [results]; for every other
    query it is the list that the visit of the tree answers. *)
Theorem absent_query_is_empty :
  forall (self self' : Evaluator) (res : EvaluationResult.t)
         (tree : ParseTree) (parser' : Parser),
    parse (_parser self) = (Ok tree, parser') ->
    evaluate self = (Ok res, self') ->
    (all_absent (_index self) tree ->
     EvaluationResult.query_result res = Some [] /\
     EvaluationResult.results res = Some ∅) /\
    (~ all_absent (_index self) tree ->
     exists qr s2,
       _visit tree {| _parser := parser'; _index := _index self;
                      eval_result := EvaluationResult.new |} = (Ok (Some qr), s2) /\
       EvaluationResult.query_result res = Some qr).
Proof.
  intros self self' res tree parser' Hp He.
  apply evaluate_Ok_inv in He as (tree' & p' & r & s2 & Hp' & Hv & ->).
  rewrite Hp in Hp'. inversion Hp'; subst tree' p'; clear Hp'.
  pose proof (_visit_None _ _ _ _ Hv) as Hn. cbn [_index] in Hn.
  split.
  - intros Ha. apply Hn in Ha. subst r. split; reflexivity.
  - intros Ha. destruct r as [qr|]; [| exfalso; apply Ha, Hn; reflexivity].
    exists qr, s2. split; [exact Hv | reflexivity].
Qed.

Lemma absent_query_is_empty_witness :
  EvaluationResult.query_result
    (eval_result (snd (evaluate (Sample.evaluator "x AND z" Sample.index_y)))) = Some [] /\
  EvaluationResult.results
    (eval_result (snd (evaluate (Sample.evaluator "x AND z" Sample.index_y)))) = Some ∅.
Proof.
  apply (proj1 (absent_query_is_empty
                  (Sample.evaluator "x AND z" Sample.index_y)
                  (snd (evaluate (Sample.evaluator "x AND z" Sample.index_y)))
                  (eval_result (snd (evaluate (Sample.evaluator "x AND z" Sample.index_y))))
                  (BinOp (Term (mkToken "x" TERM)) (mkToken "AND" AND)
                     (Term (mkToken "z" TERM)))
                  (snd (parse (_parser (Sample.evaluator "x AND z" Sample.index_y))))
                  eq_refl ltac:(vm_compute; reflexivity))).
  simpl. repeat split; reflexivity.
Defined.

End EvaluatorMore.

(** ** The lexer *)
Section LexerMore.
Import Boolean.

(** X10.  The lexer keeps the tokens and their order, and classifies each by its
    spelling alone: a token has an operator kind exactly when it is spelled
    as the value of that kind, and is a TERM exactly when it is spelled as
    none of the six reserved values (the spelling "TERM" is not reserved). *)
Theorem lexer_classifies :
  forall (tokens : list string),
    map value (lexer tokens) = tokens /\
    length (lexer tokens) = length tokens /\
    forall t : string,
      (type (lex1 t) = TERM <->
       t ∉ ["OR"; "AND"; "NOT"; "("; ")"; "##EOF##"]) /\
      forall k : TokenType, k <> TERM -> (type (lex1 t) = k <-> t = TokenType_value k).
Proof.
  intros tokens. split; [| split].
  - unfold lexer. rewrite map_map. rewrite <- (map_id tokens) at 2.
    apply map_ext. apply lex1_value.
  - unfold lexer. apply length_map.
  - intros t.
    assert (Hk : forall k, k <> TERM -> (type (lex1 t) = k <-> t = TokenType_value k)).
    { intros k Hk. unfold lex1. simpl.
      destruct (String.eqb_spec t "OR") as [->|H1];
        [destruct k; simpl; split; congruence |].
      destruct (String.eqb_spec t "AND") as [->|H2];
        [destruct k; simpl; split; congruence |].
      destruct (String.eqb_spec t "NOT") as [->|H3];
        [destruct k; simpl; split; congruence |].
      destruct (String.eqb_spec t "(") as [->|H4];
        [destruct k; simpl; split; congruence |].
      destruct (String.eqb_spec t ")") as [->|H5];
        [destruct k; simpl; split; congruence |].
      destruct (String.eqb_spec t "##EOF##") as [->|H6];
        [destruct k; simpl; split; congruence |].
      destruct k; simpl; split; congruence. }
    split; [| exact Hk].
    rewrite !not_elem_of_cons.
    pose proof (Hk OR ltac:(discriminate)) as HOR.
    pose proof (Hk AND ltac:(discriminate)) as HAND.
    pose proof (Hk NOT ltac:(discriminate)) as HNOT.
    pose proof (Hk LPAREN ltac:(discriminate)) as HL.
    pose proof (Hk RPAREN ltac:(discriminate)) as HR.
    pose proof (Hk EOF ltac:(discriminate)) as HE.
    simpl in *. split.
    + intros Hty. repeat split;
        try (intros Heq;
             first [apply HOR in Heq | apply HAND in Heq | apply HNOT in Heq
                   | apply HL in Heq | apply HR in Heq | apply HE in Heq];
             congruence).
      intros Hin. inversion Hin.
    + intros (N1 & N2 & N3 & N4 & N5 & N6 & _).
      destruct (type (lex1 t)) eqn:E; try reflexivity; exfalso.
      * apply N1, HOR. reflexivity.
      * apply N2, HAND. reflexivity.
      * apply N3, HNOT. reflexivity.
      * apply N4, HL. reflexivity.
      * apply N5, HR. reflexivity.
      * apply N6, HE. reflexivity.
Qed.

Lemma lexer_classifies_witness :
  type (lex1 "AND") = AND /\ type (lex1 "and") = TERM /\ type (lex1 "TERM") = TERM.
Proof.
  destruct (lexer_classifies []) as (_ & _ & H).
  split; [| split].
  - apply (proj2 (H "AND") AND); [discriminate | reflexivity].
  - apply (proj1 (H "and")). intros Hin.
    repeat (apply elem_of_cons in Hin as [Hin|Hin]; [discriminate |]).
    inversion Hin.
  - apply (proj1 (H "TERM")). intros Hin.
    repeat (apply elem_of_cons in Hin as [Hin|Hin]; [discriminate |]).
    inversion Hin.
Defined.

End LexerMore.

(** ** The ranker: which documents are scored, which tokens count *)
Section RankingMore.
Import BM25 BM25Spec.
Context {num : Type} {float : PyFloat num}.
Context {EvaluationResult : Type} {aggregator : Aggregator num EvaluationResult}.

Implicit Types self : RankedSearchBM25 num.

Lemma res_mapM_keys {A} (key : A -> Z) (f : A -> Res num) l : forall cs,
  res_mapM (fun x => res_map (pair (key x)) (f x)) l = Ok cs ->
  map fst cs = map key l.
Proof.
  induction l as [|x l IH]; intros cs H; simpl in H.
  - inversion H. reflexivity.
  - destruct (f x) as [w|e|]; try discriminate.
    cbn [res_map res_bind] in H.
    destruct (res_mapM _ l) as [cs'|e|]; try discriminate.
    inversion H; subst. simpl. rewrite (IH cs' eq_refl). reflexivity.
Qed.

Lemma term_contributions_keys self ps cs :
  term_contributions self ps = Ok cs -> map fst cs = docids ps.
Proof.
  unfold term_contributions, res_bind.
  destruct (idf self ps); try discriminate.
  apply res_mapM_keys.
Qed.

Lemma res_mapM_concat_keys self (tpl : list ref) : forall css,
  res_mapM (fun r => term_contributions self (postings (objects (index self) r))) tpl
    = Ok css ->
  map fst (concat css) =
  flat_map (fun r => docids (postings (objects (index self) r))) tpl.
Proof.
  induction tpl as [|r tpl IH]; intros css H; simpl in H.
  - inversion H. reflexivity.
  - unfold res_bind in H.
    destruct (term_contributions self _) as [cs|e|] eqn:Et; try discriminate.
    destruct (res_mapM _ tpl) as [css'|e|]; try discriminate.
    inversion H; subst. simpl. rewrite map_app, (IH css' eq_refl).
    rewrite (term_contributions_keys _ _ _ Et). reflexivity.
Qed.

(** X11.  The documents that are scored are the documents of the postings of the
    fetched objects, each once, in the order of their first posting. *)
Theorem scored_documents :
  forall self (scored : list (Z * num)),
    fst (evaluate_scores self) = Ok scored ->
    map fst scored =
      first_occurrences
        (flat_map (fun r => docids (postings (objects (index self) r))) (fetched self)) /\
    NoDup (map fst scored) /\
    forall d : Z,
      d ∈ map fst scored <->
      exists r, r ∈ fetched self /\ d ∈ docids (postings (objects (index self) r)).
Proof.
  intros self scored H.
  destruct (evaluate_scores_spec self) as (s1 & Hs & _).
  rewrite Hs in H. cbn [fst] in H.
  unfold query_contributions, res_map, res_bind in H.
  destruct (res_mapM _ (fetched self)) as [css|e|] eqn:Em; try discriminate.
  inversion H; subst scored; clear H.
  assert (Hk : map fst (scores (concat css)) =
               first_occurrences
                 (flat_map (fun r => docids (postings (objects (index self) r)))
                    (fetched self))).
  { unfold scores. rewrite map_map. simpl. rewrite map_id.
    rewrite (res_mapM_concat_keys _ _ _ Em). reflexivity. }
  split; [exact Hk |]. rewrite Hk. split; [apply NoDup_first_occurrences |].
  intros d. rewrite elem_of_first_occurrences, list_elem_of_In, in_flat_map.
  split; intros (r & Hr & Hd); exists r.
  - split; [apply list_elem_of_In, Hr | apply list_elem_of_In, Hd].
  - split; [apply list_elem_of_In, Hr | apply list_elem_of_In, Hd].
Qed.

(** *** Tokens that the index does not know *)

Lemma omap_cons_match {A B} (f : A -> option B) x (l : list A) :
  omap f (x :: l) =
  match f x with
  | Some y => y :: omap f l
  | None => omap f l
  end.
Proof. reflexivity. Qed.

Lemma omap_known (idx : InvertedIndex num) (ts : list string) :
  omap (get_postings idx) (filter (fun t => is_Some (get_postings idx t)) ts) =
  omap (get_postings idx) ts.
Proof.
  induction ts as [|t ts IH]; [reflexivity |].
  rewrite filter_cons, (omap_cons_match _ t ts).
  destruct (decide (is_Some (get_postings idx t))) as [[r Hr]|Hn].
  - rewrite omap_cons_match, Hr, IH. reflexivity.
  - rewrite IH. destruct (get_postings idx t) as [r|]; [| reflexivity].
    exfalso. apply Hn. eexists; reflexivity.
Qed.

Lemma last_fetching_known (idx : InvertedIndex num) r (ts : list string) :
  last_fetching idx r (filter (fun t => is_Some (get_postings idx t)) ts) =
  last_fetching idx r ts.
Proof.
  unfold last_fetching. f_equal.
  induction ts as [|t ts IH]; [reflexivity |].
  rewrite !filter_cons.
  destruct (decide (is_Some (get_postings idx t))) as [Hs|Hn].
  - rewrite filter_cons, IH. reflexivity.
  - rewrite IH.
    destruct (decide (get_postings idx t = Some r)) as [Heq|_]; [| reflexivity].
    exfalso. apply Hn. rewrite Heq. eexists; reflexivity.
Qed.

Lemma query_contributions_with_query self q :
  omap (get_postings (index self)) q = fetched self ->
  query_contributions (with_query self q) = query_contributions self.
Proof.
  intros H. unfold query_contributions, fetched in *. simpl. rewrite H. reflexivity.
Qed.

Lemma registered_ext (s1 s2 : RankedSearchBM25 num) tpl : forall results,
  (forall r, term (objects (index s1) r) = term (objects (index s2) r)) ->
  (forall r, postings (objects (index s1) r) = postings (objects (index s2) r)) ->
  registered s1 tpl results = registered s2 tpl results.
Proof.
  unfold registered. induction tpl as [|r tpl IH]; intros results Ht Hp;
    [reflexivity |].
  simpl. rewrite Ht, Hp. apply IH; assumption.
Qed.

(** X12.  The tokens of the query that the index does not know change nothing:
    the scores and the result of the evaluation are those of the query
    without them. *)
Theorem unknown_tokens_are_ignored :
  forall self,
    fst (evaluate_scores (with_query self (known_query self))) =
      fst (evaluate_scores self) /\
    fst (evaluate (with_query self (known_query self))) = fst (evaluate self).
Proof.
  intros self.
  assert (Hf : omap (get_postings (index self)) (known_query self) = fetched self)
    by apply omap_known.
  destruct (evaluate_scores_spec self) as (s1 & Hs1 & Hsame1 & Hterm1).
  destruct (evaluate_scores_spec (with_query self (known_query self)))
    as (s2 & Hs2 & Hsame2 & Hterm2).
  destruct (evaluate_bm25_spec self) as (s1' & He1 & Hsnd1).
  destruct (evaluate_bm25_spec (with_query self (known_query self)))
    as (s2' & He2 & Hsnd2).
  rewrite Hs1 in Hsnd1. rewrite Hs2 in Hsnd2. simpl in Hsnd1, Hsnd2. subst s1' s2'.
  rewrite Hs1, Hs2, He1, He2. cbn [fst].
  rewrite (query_contributions_with_query self _ Hf).
  split; [reflexivity |].
  assert (Hfe : fetched (with_query self (known_query self)) = fetched self)
    by exact Hf.
  rewrite Hfe.
  destruct (query_contributions self) as [cs|e|]; try reflexivity.
  simpl. f_equal. f_equal. apply registered_ext.
  - intros r. rewrite Hterm1, Hterm2. simpl.
    unfold known_query. rewrite last_fetching_known. reflexivity.
  - intros r.
    destruct Hsame1 as (_ & _ & _ & _ & _ & _ & _ & Hp1).
    destruct Hsame2 as (_ & _ & _ & _ & _ & _ & _ & Hp2).
    rewrite Hp1, Hp2. reflexivity.
Qed.

Lemma evaluate_for_unknown ts : forall tpl self,
  Forall (fun t => get_postings (index self) t = None) ts ->
  evaluate_for ts tpl self = (Ok tpl, self).
Proof.
  induction ts as [|t ts IH]; intros tpl self H; [reflexivity |].
  apply Forall_cons in H as [Ht Hts].
  cbn [evaluate_for]. unfold bind, gets. rewrite Ht. apply IH, Hts.
Qed.

Lemma res_mapM_empty_postings self (tpl : list ref) :
  Forall (fun r => postings (objects (index self) r) = []) tpl ->
  res_mapM (fun r => term_contributions self (postings (objects (index self) r))) tpl =
  Ok (map (fun _ => []) tpl).
Proof.
  induction tpl as [|r tpl IH]; intros H; [reflexivity |].
  apply Forall_cons in H as [Hr Htpl].
  simpl. rewrite Hr, (IH Htpl). reflexivity.
Qed.

Lemma concat_nils {A B} (l : list A) : concat (map (fun _ => @nil B) l) = [].
Proof. induction l; simpl; auto. Qed.

(** X13.  A query with nothing to score: when every fetched object has an empty
    postings list no arithmetic is done, so nothing can be raised, and the
    ranking is empty; when the index knows no token of the query (an empty
    query too) the evaluation returns the empty aggregator with an empty
    ranking and changes nothing. *)
Theorem nothing_to_score :
  forall self,
    (Forall (fun r => postings (objects (index self) r) = []) (fetched self) ->
     fst (evaluate_scores self) = Ok []) /\
    (Forall (fun t => get_postings (index self) t = None) (query self) ->
     evaluate self = (Ok (update_ranked_results [] EvaluationResult_new), self)).
Proof.
  intros self. split.
  - intros H. destruct (evaluate_scores_spec self) as (s1 & Hs & _).
    rewrite Hs. cbn [fst]. unfold query_contributions.
    rewrite (res_mapM_empty_postings self _ H). simpl.
    rewrite concat_nils. reflexivity.
  - intros H. unfold evaluate, bind at 1, gets at 1.
    unfold bind at 1. rewrite (evaluate_for_unknown _ _ _ H).
    reflexivity.
Qed.

End RankingMore.

(** ** The ranker: what is registered, and the order of ties *)
Section RankingRegistration.
Import BM25 BM25Spec.
Context {num : Type} {float : PyFloat num}.
Context {EvaluationResult : Type} {aggregator : Aggregator num EvaluationResult}.

Implicit Types self : RankedSearchBM25 num.

Lemma fold_left_omap {A B C} (g : A -> option B) (F : C -> B -> C) l : forall c,
  fold_left F (omap g l) c =
  fold_left (fun c x => match g x with Some y => F c y | None => c end) l c.
Proof.
  induction l as [|x l IH]; intros c; [reflexivity |].
  rewrite omap_cons_match. simpl. destruct (g x); simpl; apply IH.
Qed.

Lemma fold_left_ext_in {A C} (F G : C -> A -> C) l : forall c,
  (forall c x, x ∈ l -> F c x = G c x) -> fold_left F l c = fold_left G l c.
Proof.
  induction l as [|x l IH]; intros c H; [reflexivity |].
  simpl. rewrite (H c x) by (left). apply IH.
  intros c' y Hy. apply H. right. exact Hy.
Qed.

Lemma last_fetching_unique (idx : InvertedIndex num) r (ts : list string) t :
  (forall t', t' ∈ ts -> get_postings idx t' = Some r -> t' = t) ->
  t ∈ ts -> get_postings idx t = Some r ->
  last_fetching idx r ts = Some t.
Proof.
  intros Hu Hin Hg. unfold last_fetching.
  destruct (last (filter _ ts)) as [t'|] eqn:El.
  - apply last_Some_elem_of, list_elem_of_filter in El as [Hg' Hin'].
    rewrite (Hu t' Hin' Hg'). reflexivity.
  - apply last_None in El.
    assert (Hf : t ∈ filter (fun t0 => get_postings idx t0 = Some r) ts)
      by (apply list_elem_of_filter; split; assumption).
    rewrite El in Hf. inversion Hf.
Qed.

(** X14.  What an evaluation registers in the aggregator: each fetched object
    under the last token of the query that fetched it.  When no two tokens
    of the query share an object, that is each known token of the query
    under its own name, with the postings of its object, in the order of the
    query. *)
Theorem evaluate_registers :
  forall self (res : EvaluationResult),
    fst (evaluate self) = Ok res ->
    (exists ranked,
        res = update_ranked_results ranked
                (registered_by_last self EvaluationResult_new)) /\
    ((forall t t' r,
         t ∈ query self -> t' ∈ query self ->
         get_postings (index self) t = Some r ->
         get_postings (index self) t' = Some r -> t = t') ->
     registered_by_last self EvaluationResult_new =
     registered_by_token self (query self) EvaluationResult_new).
Proof.
  intros self res H. split.
  - destruct (evaluate_scores_spec self) as (s1 & Hs & Hsame & Hterm).
    destruct (evaluate_bm25_spec self) as (s1' & He & Hsnd).
    rewrite Hs in Hsnd. simpl in Hsnd. subst s1'.
    rewrite He in H. cbn [fst] in H.
    destruct (query_contributions self) as [cs|e|]; try discriminate.
    simpl in H. inversion H; subst res; clear H.
    exists (ranked_score (scores cs)). f_equal.
    unfold registered, registered_by_last.
    apply fold_left_ext_in. intros c r _.
    destruct Hsame as (_ & _ & _ & _ & _ & _ & _ & Hp).
    rewrite Hterm, Hp. reflexivity.
  - intros Hinj. unfold registered_by_last, registered_by_token, fetched.
    rewrite fold_left_omap. apply fold_left_ext_in.
    intros c t Hin. destruct (get_postings (index self) t) as [r|] eqn:Hg;
      [| reflexivity].
    rewrite (last_fetching_unique (index self) r (query self) t);
      [reflexivity | | exact Hin | exact Hg].
    intros t' Hin' Hg'. apply (Hinj t' t r); assumption.
Qed.

(** *** Ties *)

Section Order.
Hypothesis ltb_asym : forall x y : num, ltb x y = true -> ltb y x = false.
Hypothesis ltb_negtrans :
  forall x y z : num, ltb x y = false -> ltb y z = false -> ltb x z = false.

Lemma place_tied s x (l : list (Z * num)) :
  filter (tied s) (place x l) = filter (tied s) (x :: l).
Proof.
  induction l as [|y l IH]; [reflexivity |].
  simpl. destruct (ltb (snd x) (snd y)) eqn:E; [| reflexivity].
  rewrite filter_cons, IH, !filter_cons.
  destruct (decide (tied s y)) as [[Hy1 Hy2]|Hy]; [| reflexivity].
  destruct (decide (tied s x)) as [[Hx1 Hx2]|Hx]; [| reflexivity].
  rewrite (ltb_negtrans _ _ _ Hx1 Hy2) in E. discriminate.
Qed.

Lemma sorted_by_score_reverse_tied s (l : list (Z * num)) :
  filter (tied s) (sorted_by_score_reverse l) = filter (tied s) l.
Proof.
  induction l as [|x l IH]; [reflexivity |].
  simpl. rewrite place_tied, !filter_cons, IH. reflexivity.
Qed.

Lemma sorted_by_score_reverse_descending_id (l : list (Z * num)) :
  descending l -> sorted_by_score_reverse l = l.
Proof.
  unfold descending. induction 1 as [|x l Hl IH Hx]; [reflexivity |].
  simpl. rewrite IH. destruct l as [|y l']; [reflexivity |].
  simpl. apply Forall_cons in Hx as [Hxy _]. rewrite Hxy. reflexivity.
Qed.

End Order.

End RankingRegistration.

Section RankingStable.
Import BM25 BM25Spec.



Lemma scored_documents_witness :
  NoDup (map fst [(1, QArith_base.Qmake 17600 12800); (2, QArith_base.Qmake 8800 8800)]).
Proof.
  apply (scored_documents SampleRanking.ranker_apple
           [(1, QArith_base.Qmake 17600 12800); (2, QArith_base.Qmake 8800 8800)]).
  vm_compute. reflexivity.
Defined.

Lemma nothing_to_score_witness :
  fst (evaluate_scores SampleRankingMore.ranker_ghost) = Ok [] /\
  evaluate SampleRankingMore.ranker_pear =
    (Ok (update_ranked_results [] EvaluationResult_new), SampleRankingMore.ranker_pear).
Proof.
  split.
  - apply (proj1 (nothing_to_score SampleRankingMore.ranker_ghost)).
    repeat constructor.
  - apply (proj2 (nothing_to_score SampleRankingMore.ranker_pear)).
    repeat constructor.
Defined.

Lemma evaluate_registers_witness :
  registered_by_last SampleRanking.ranker_apple EvaluationResult_new =
  registered_by_token SampleRanking.ranker_apple ["apple"] EvaluationResult_new.
Proof.
  assert (H : fst (evaluate SampleRanking.ranker_apple) =
              Ok ([("apple", [mkPosting 1 [0; 4]; mkPosting 2 [3]])],
                  [(1, QArith_base.Qmake 17600 12800);
                   (2, QArith_base.Qmake 8800 8800)]))
    by (vm_compute; reflexivity).
  apply (proj2 (evaluate_registers SampleRanking.ranker_apple _ H)).
  intros t t' r Ht Ht' _ _.
  apply list_elem_of_singleton in Ht. apply list_elem_of_singleton in Ht'.
  congruence.
Defined.

(** Two tokens that share an object are both registered under the second
    one. *)
Example shared_object_registered_under_last_token :
  registered_by_last SampleRankingMore.ranker_shared EvaluationResult_new =
  ([("apples", [mkPosting 1 [0; 4]; mkPosting 2 [3]]);
    ("apples", [mkPosting 1 [0; 4]; mkPosting 2 [3]])], []).
Proof. vm_compute. reflexivity. Qed.

End RankingStable.
